(** * SdmxJsonCatalogItem: the dimension decoder, the combination enumerator
    and the column synthesizer of lib/Models/SdmxJsonCatalogItem.js,
    embedded as Rocq functions.

    A JavaScript array that the code only reads is a list.  An array that
    the code writes by index is a list of optional slots, [None] being a
    hole: a write past the end extends the array and leaves holes behind.
    A function that can raise a [TypeError] returns an [option], [None]
    being the exception.  What a function prints on the console or asks of
    a collaborator is returned as a list of [Effect]s. *)

From Stdlib Require Import ZArith Ascii.
From stdpp Require Import base strings list sorting gmap pretty.

Local Open Scope Z_scope.
Local Open Scope nat_scope.

(** ** JavaScript strings *)

(** A string is held as the bytes of its UTF-8 form.  The code searches for
    the characters [_] and [/] and for substrings between slashes, whose
    bytes are never part of the encoding of another character: the pieces
    that [slice] and [replace] cut at the positions found are the pieces
    that the engine cuts in its own code units. *)

(** A string of ASCII characters: every character code is below 128. *)
Fixpoint isAscii (s : string) : bool :=
  match s with
  | EmptyString => true
  | String c s' => (N_of_ascii c <? 128)%N && isAscii s'
  end.

(** What [String.prototype.toLowerCase] returns on a string of ASCII
    characters: the letters [A] to [Z] are replaced by [a] to [z], and every
    other character is left as it is. *)
Definition lower_ascii (c : ascii) : ascii :=
  let n := N_of_ascii c in
  if ((65 <=? n) && (n <=? 90))%N then ascii_of_N (n + 32) else c.

Fixpoint lowerCaseAscii (s : string) : string :=
  match s with
  | EmptyString => EmptyString
  | String c s' => String (lower_ascii c) (lowerCaseAscii s')
  end.

(** [s.lastIndexOf(c)] for a one-character search string: the scan keeps the
    position of the latest occurrence seen, [-1] when there is none. *)
Fixpoint lastIndexOf_from (c : ascii) (s : string) (i : Z) (found : Z) : Z :=
  match s with
  | EmptyString => found
  | String a s' =>
      lastIndexOf_from c s' (i + 1)%Z (if Ascii.eqb a c then i else found)
  end.

Definition lastIndexOf (s : string) (c : ascii) : Z :=
  lastIndexOf_from c s 0%Z (-1)%Z.

Fixpoint string_take (n : nat) (s : string) : string :=
  match n, s with
  | S n', String a s' => String a (string_take n' s')
  | _, _ => EmptyString
  end.

Fixpoint string_drop (n : nat) (s : string) : string :=
  match n, s with
  | S n', String _ s' => string_drop n' s'
  | _, _ => s
  end.

(** The index clamping of [slice]: a negative index counts from the end,
    and both ends are clamped to the length. *)
Definition clampIndex (len : nat) (i : Z) : nat :=
  if (i <? 0)%Z then Z.to_nat (Z.max (Z.of_nat len + i) 0)
  else Nat.min (Z.to_nat i) len.

(** [s.slice(b, e)]; [e = None] is [s.slice(b)]. *)
Definition slice (s : string) (b : Z) (e : option Z) : string :=
  let len := String.length s in
  let from := clampIndex len b in
  let to := from_option (clampIndex len) len e in
  string_take (to - from) (string_drop from s).

(** [c] does not occur in [s]. *)
Fixpoint absent (c : ascii) (s : string) : bool :=
  match s with
  | EmptyString => true
  | String a s' => negb (Ascii.eqb a c) && absent c s'
  end.

(** [s.indexOf(c)] for a one-character search string. *)
Fixpoint indexOfChar_from (c : ascii) (s : string) (i : Z) : Z :=
  match s with
  | EmptyString => (-1)%Z
  | String a s' => if Ascii.eqb a c then i else indexOfChar_from c s' (i + 1)%Z
  end.

Definition indexOfChar (s : string) (c : ascii) : Z := indexOfChar_from c s 0%Z.

(** [s.lastIndexOf(sub)]: the scan keeps the latest position at which
    [sub] starts. *)
Fixpoint lastIndexOfString_from (sub s : string) (i : Z) (found : Z) : Z :=
  let found := if String.prefix sub s then i else found in
  match s with
  | EmptyString => found
  | String _ s' => lastIndexOfString_from sub s' (i + 1)%Z found
  end.

Definition lastIndexOfString (s sub : string) : Z :=
  lastIndexOfString_from sub s 0%Z (-1)%Z.

(** [s.replace(sub, by)] for a string pattern: the first occurrence of
    [sub] is replaced.  The replacement is taken as it is; the url
    components hold no [$] pattern. *)
Fixpoint replaceFirst (sub replacement s : string) : string :=
  if String.prefix sub s
  then replacement +:+ string_drop (String.length sub) s
  else match s with
       | EmptyString => EmptyString
       | String a s' => String a (replaceFirst sub replacement s')
       end.

(** [a.join(sep)] on an array of strings; an [undefined] element or a hole
    is rendered as the empty string. *)
Definition joinStrings (sep : string) (a : list (option string)) : string :=
  String.concat sep (from_option id "" <$> a).

(** [a.join(sep)] on an array of value indices, each printed in decimal. *)
Definition joinIndices (sep : string) (a : list (option nat)) : string :=
  String.concat sep (from_option pretty "" <$> a).

(** ** JavaScript arrays *)

(** [a[i]]: [undefined] (here [None]) on a hole and past the end. *)
Definition js_get {A} (a : list (option A)) (i : nat) : option A :=
  a !! i ≫= id.

(** [a[i] = v]: in range the slot is replaced; past the end the array is
    extended, the slots between the old end and [i] being holes. *)
Definition js_set {A} (i : nat) (v : A) (a : list (option A)) : list (option A) :=
  if decide (i < length a) then <[i := Some v]> a
  else a ++ replicate (i - length a) None ++ [Some v].

(** [a.filter(cb)] with [cb(element, index)]: holes are skipped, though they
    count in the index; the result is dense.  The callback may raise. *)
Fixpoint js_filter_from {A} (cb : A → nat → option bool) (i : nat)
    (a : list (option A)) : option (list A) :=
  match a with
  | [] => Some []
  | None :: a' => js_filter_from cb (S i) a'
  | Some x :: a' =>
      keep ← cb x i;
      rest ← js_filter_from cb (S i) a';
      Some (if keep : bool then x :: rest else rest)
  end.

Definition js_filter {A} (cb : A → nat → option bool) (a : list (option A)) :
    option (list A) :=
  js_filter_from cb 0 a.

(** [a.indexOf(x)]: the position of the first slot that is present and
    strictly equal to [x] ([same] is the comparison with [x]); holes are
    skipped; [-1] when there is none. *)
Fixpoint js_indexOf_from {A} (same : A → bool) (a : list (option A)) (i : Z) : Z :=
  match a with
  | [] => (-1)%Z
  | Some x :: a' => if same x then i else js_indexOf_from same a' (i + 1)%Z
  | None :: a' => js_indexOf_from same a' (i + 1)%Z
  end.

Definition js_indexOf {A} (same : A → bool) (a : list (option A)) : Z :=
  js_indexOf_from same a 0%Z.

(** [a.indexOf(x)] on a dense array. *)
Definition indexOf {A} `{EqDecision A} (a : list A) (x : A) : Z :=
  js_indexOf (λ y, bool_decide (y = x)) (Some <$> a).

(** [a.slice(b, e)] on a dense array, for indices that are not negative. *)
Definition sliceArray {A} (a : list A) (b e : nat) : list A :=
  take (e - b) (drop b a).

(** eg. range(5) returns [0, 1, 2, 3, 4]. *)
Definition range (length : nat) : list nat := seq 0 length.

(** Modelled from the spec: [arrayProduct] (lib/Core/arrayProduct) is not
    under src/.  It is the cartesian product of the pools, enumerated in
    lexicographic order with the first pool varying slowest: every partial
    tuple is extended by every member of the next pool in turn.  The
    product of no pools is the one empty tuple. *)
Definition arrayProduct {A} (pools : list (list A)) : list (list A) :=
  fold_left
    (λ result pool,
       partialResult ← result; poolMember ← pool; [partialResult ++ [poolMember]])
    pools [[]].

(** ** The wire format *)

(** An allowed value of a dimension, [{id, name}]. *)
Record NameAndId := {
  val_id : string;
  val_name : string
}.

(** An entry of [json.structure.dimensions.series] (or [.observation]):
    [{keyPosition, id, name, values}]. *)
Record Dimension := {
  keyPosition : nat;
  dim_id : string;
  dim_name : string;
  dim_values : list NameAndId
}.

Section Model.

Context {Num : Type}.

(** A table cell or an observation value. *)
Inductive Cell :=
  | CString (s : string)
  | CNumber (v : Num)
  | CNull
  | CUndefined.

(** An entry of [json.dataSets[0].series]: [observations] maps a time index
    to the array of the values observed then. *)
Record SeriesEntry := {
  observations : gmap nat (list Cell)
}.

(** Modelled from the spec: [TableColumn] (lib/Map/TableColumn) is not under
    src/.  A column is [{name, values, isActive}], one value per region row;
    the constructor stores the name and the values, and a new column is not
    active. *)
Record Column := {
  col_name : string;
  col_values : list Cell;
  col_isActive : bool
}.

Definition TableColumn (name : string) (values : list Cell) : Column :=
  {| col_name := name; col_values := values; col_isActive := false |}.

Definition setActive (column : Column) : Column :=
  {| col_name := col_name column; col_values := col_values column;
     col_isActive := true |}.

(** A child selection item ([VariableConcept]) and its parent concept
    ([DisplayVariablesConcept]); the name of a parent is a dimension name,
    which is [undefined] for a slot that no entry has filled. *)
Record VariableConcept := {
  vc_name : string;
  vc_isActive : bool
}.

Record Concept := {
  concept_name : option string;
  items : list VariableConcept
}.

(** The output of [calculateSpecialDimensions]. *)
Record SpecialDimensions := {
  regionDimensionIndex : option nat;
  regionTypeDimensionIndex : option nat;
  regionTypeCount : nat;
  timePeriodDimensionIndex : option nat
}.

(** The output of [calculateShownDimensionNamesAndValues]: five arrays
    indexed by keyPosition. *)
Record DimensionInfo := {
  di_values : list (option (list nat));
  di_names : list (option (list string));
  di_ids : list (option (list string));
  di_dimensionNames : list (option (option string));
  di_dimensionIds : list (option (option string))
}.

(** The output of [calculateShownDimensionCombinations]. *)
Record Combinations := {
  sdc_values : list (list nat);
  sdc_names : list (list string)
}.

(** The fields of the catalog item that the pipeline reads and writes;
    [columns] is [item._tableStructure.columns].  The four role ids and
    the two url components hold their values after [_load] has set the
    defaults. *)
Record Item := {
  url : string;
  _dataflowUrl : option string;
  dataUrlComponent : string;
  dataflowUrlComponent : string;
  regionTypeDimensionId : string;
  regionDimensionId : string;
  frequencyDimensionId : string;
  timePeriodDimensionId : string;
  regionType : option string;
  _specialDimensions : option SpecialDimensions;
  _dimensionInfo : option DimensionInfo;
  _combinations : option (list (list nat));
  _concepts : list Concept;
  columns : list Column
}.

(** What the code asks of the console and of its collaborators. *)
Inductive Effect :=
  | ConsoleLog (args : list string)
  | LoadJson (requestUrl : string)
  | HideImageryLayer
  | NotifyRepaintRequired
  | LoadRegionDetails.

(** The decoded documents: [json.structure.dimensions.series] with
    [json.dataSets[0].series] for data, and
    [json.structure.dimensions.observation] for a dataflow. *)
Record DataJson := {
  structure_dimensions_series : list Dimension;
  dataSets0_series : gmap string SeriesEntry
}.

Record DataflowJson := {
  structure_dimensions_observation : list Dimension
}.

Definition set_specialDimensions (item : Item) (sd : SpecialDimensions) : Item :=
  {| url := url item; _dataflowUrl := _dataflowUrl item;
     dataUrlComponent := dataUrlComponent item;
     dataflowUrlComponent := dataflowUrlComponent item;
     regionTypeDimensionId := regionTypeDimensionId item;
     regionDimensionId := regionDimensionId item;
     frequencyDimensionId := frequencyDimensionId item;
     timePeriodDimensionId := timePeriodDimensionId item;
     regionType := regionType item;
     _specialDimensions := Some sd;
     _dimensionInfo := _dimensionInfo item;
     _combinations := _combinations item;
     _concepts := _concepts item;
     columns := columns item |}.

Definition set_dimensionInfo (item : Item) (info : DimensionInfo) : Item :=
  {| url := url item; _dataflowUrl := _dataflowUrl item;
     dataUrlComponent := dataUrlComponent item;
     dataflowUrlComponent := dataflowUrlComponent item;
     regionTypeDimensionId := regionTypeDimensionId item;
     regionDimensionId := regionDimensionId item;
     frequencyDimensionId := frequencyDimensionId item;
     timePeriodDimensionId := timePeriodDimensionId item;
     regionType := regionType item;
     _specialDimensions := _specialDimensions item;
     _dimensionInfo := Some info;
     _combinations := _combinations item;
     _concepts := _concepts item;
     columns := columns item |}.

Definition set_conceptsAndCombinations (item : Item)
    (combinations : list (list nat)) (concepts : list Concept) : Item :=
  {| url := url item; _dataflowUrl := _dataflowUrl item;
     dataUrlComponent := dataUrlComponent item;
     dataflowUrlComponent := dataflowUrlComponent item;
     regionTypeDimensionId := regionTypeDimensionId item;
     regionDimensionId := regionDimensionId item;
     frequencyDimensionId := frequencyDimensionId item;
     timePeriodDimensionId := timePeriodDimensionId item;
     regionType := regionType item;
     _specialDimensions := _specialDimensions item;
     _dimensionInfo := _dimensionInfo item;
     _combinations := Some combinations;
     _concepts := concepts;
     columns := columns item |}.

Definition set_concepts (item : Item) (concepts : list Concept) : Item :=
  {| url := url item; _dataflowUrl := _dataflowUrl item;
     dataUrlComponent := dataUrlComponent item;
     dataflowUrlComponent := dataflowUrlComponent item;
     regionTypeDimensionId := regionTypeDimensionId item;
     regionDimensionId := regionDimensionId item;
     frequencyDimensionId := frequencyDimensionId item;
     timePeriodDimensionId := timePeriodDimensionId item;
     regionType := regionType item;
     _specialDimensions := _specialDimensions item;
     _dimensionInfo := _dimensionInfo item;
     _combinations := _combinations item;
     _concepts := concepts;
     columns := columns item |}.

Definition set_columns (item : Item) (newColumns : list Column) : Item :=
  {| url := url item; _dataflowUrl := _dataflowUrl item;
     dataUrlComponent := dataUrlComponent item;
     dataflowUrlComponent := dataflowUrlComponent item;
     regionTypeDimensionId := regionTypeDimensionId item;
     regionDimensionId := regionDimensionId item;
     frequencyDimensionId := frequencyDimensionId item;
     timePeriodDimensionId := timePeriodDimensionId item;
     regionType := regionType item;
     _specialDimensions := _specialDimensions item;
     _dimensionInfo := _dimensionInfo item;
     _combinations := _combinations item;
     _concepts := _concepts item;
     columns := newColumns |}.

(** ** Special-role resolver *)

(** The body of the loop of [calculateSpecialDimensions] for one entry. *)
Definition specialStep (item : Item) (result : SpecialDimensions)
    (entry : Dimension) : SpecialDimensions :=
  if decide (dim_id entry = regionDimensionId item) then
    {| regionDimensionIndex := Some (keyPosition entry);
       regionTypeDimensionIndex := regionTypeDimensionIndex result;
       regionTypeCount := regionTypeCount result;
       timePeriodDimensionIndex := timePeriodDimensionIndex result |}
  else if decide (dim_id entry = regionTypeDimensionId item) then
    {| regionDimensionIndex := regionDimensionIndex result;
       regionTypeDimensionIndex := Some (keyPosition entry);
       regionTypeCount := length (dim_values entry);
       timePeriodDimensionIndex := timePeriodDimensionIndex result |}
  else if decide (dim_id entry = timePeriodDimensionId item) then
    {| regionDimensionIndex := regionDimensionIndex result;
       regionTypeDimensionIndex := regionTypeDimensionIndex result;
       regionTypeCount := regionTypeCount result;
       timePeriodDimensionIndex := Some (keyPosition entry) |}
  else result.

Definition noSpecialDimensions : SpecialDimensions :=
  {| regionDimensionIndex := None; regionTypeDimensionIndex := None;
     regionTypeCount := 0; timePeriodDimensionIndex := None |}.

Definition calculateSpecialDimensions (item : Item)
    (structureSeries : list Dimension) : SpecialDimensions :=
  fold_left (specialStep item) structureSeries noSpecialDimensions.

(** ** Dimension catalogue decoder *)

(** The result after the first loop of
    [calculateShownDimensionNamesAndValues]: one pushed slot per entry in
    [values], [names], [dimensionNames] and [dimensionIds]; nothing is
    pushed to [ids]. *)
Definition initialInfo (count : nat) : DimensionInfo :=
  {| di_values := replicate count (Some []);
     di_names := replicate count (Some []);
     di_ids := [];
     di_dimensionNames := replicate count (Some None);
     di_dimensionIds := replicate count (Some None) |}.

(** The body of the second loop for one entry. *)
Definition decodeStep (result : DimensionInfo) (thisSeries : Dimension) :
    DimensionInfo :=
  let slot := keyPosition thisSeries in
  let values := dim_values thisSeries in
  {| di_values := js_set slot (range (length values)) (di_values result);
     di_names :=
       js_set slot
         (if decide (1 < length values) then val_name <$> values else [""])
         (di_names result);
     di_ids := js_set slot (val_id <$> values) (di_ids result);
     di_dimensionNames :=
       js_set slot (Some (dim_name thisSeries)) (di_dimensionNames result);
     di_dimensionIds :=
       js_set slot (Some (dim_id thisSeries)) (di_dimensionIds result) |}.

(** [removeIndex]: holds a special dimension to its first value and blanks
    its names; [ids] is left as it is. *)
Definition removeIndex (index : option nat) (result : DimensionInfo) :
    option DimensionInfo :=
  match index with
  | None => Some result
  | Some index =>
      values ← js_get (di_values result) index;
      Some {| di_values := js_set index (take 1 values) (di_values result);
              di_names := js_set index [""] (di_names result);
              di_ids := di_ids result;
              di_dimensionNames := di_dimensionNames result;
              di_dimensionIds := di_dimensionIds result |}
  end.

(** [calculateShownDimensionNamesAndValues]: what it prints and what it
    returns.  The test [result.values.indexOf(undefined) >= 0] compares the
    present slots of [values] with [undefined]; each of them holds an
    array, and an array is never strictly equal to [undefined]. *)
Definition calculateShownDimensionNamesAndValues
    (structureSeries : list Dimension)
    (specialDimensions : option SpecialDimensions) :
    list Effect * option DimensionInfo :=
  let result :=
    fold_left decodeStep structureSeries
      (initialInfo (length structureSeries)) in
  let missing := js_indexOf (λ _ : list nat, false) (di_values result) in
  let console :=
    if (0 <=? missing)%Z
    then [ConsoleLog ["Missing dimension at key position " +:+ pretty missing]]
    else [] in
  (console,
   match specialDimensions with
   | None => Some result
   | Some special =>
       result ← removeIndex (regionDimensionIndex special) result;
       removeIndex (timePeriodDimensionIndex special) result
   end).

(** ** Combination enumerator *)

(** [getNonTimeDimensionFilter(item)], as the callback it returns. *)
Definition getNonTimeDimensionFilter {A} (item : Item) (_ : A)
    (dimensionIndex : nat) : option bool :=
  special ← _specialDimensions item;
  Some (bool_decide (Some dimensionIndex ≠ timePeriodDimensionIndex special)).

Definition calculateShownDimensionCombinations (item : Item) :
    option Combinations :=
  info ← _dimensionInfo item;
  values ← js_filter (getNonTimeDimensionFilter item) (di_values info);
  names ← js_filter (getNonTimeDimensionFilter item) (di_names info);
  Some {| sdc_values := arrayProduct values; sdc_names := arrayProduct names |}.

(** ** Column synthesizer *)

(** [String.prototype.toLowerCase] is a builtin of the engine, which
    lower-cases by the case mapping of Unicode.  It is a parameter of the
    model; a property that needs what it returns on a given string says
    so. *)
Variable toLowerCase : string → string.

Definition getRegionColumnName (regionTypeId : string) : string :=
  let lowerCaseId := toLowerCase regionTypeId in
  let underscoreIndex := lastIndexOf lowerCaseId "_"%char in
  if (0 <=? underscoreIndex)%Z then
    slice lowerCaseId 0 (Some underscoreIndex) +:+ "_code"
      +:+ slice lowerCaseId underscoreIndex None
  else
    lowerCaseId +:+ "_code".

(** [getRegionTypeId]: the inner [option] is [undefined]. *)
Definition getRegionTypeId (item : Item) (structureSeries : list Dimension) :
    option (option string) :=
  specialDimensions ← _specialDimensions item;
  match regionTypeDimensionIndex specialDimensions with
  | Some regionTypeIndex =>
      regionTypeDimension ← structureSeries !! regionTypeIndex;
      first ← dim_values regionTypeDimension !! 0;
      Some (Some (val_id first))
  | None =>
      match regionDimensionIndex specialDimensions with
      | Some regionIndex =>
          regionDimension ← structureSeries !! regionIndex;
          let regionDimId := dim_id regionDimension in
          match regionType item with
          | Some given => Some (Some given)
          | None => Some (Some regionDimId)
          end
      | None => Some None
      end
  end.

(** [buildRegionColumn]: the inner [option] is [undefined], returned when
    there is no region dimension. *)
Definition buildRegionColumn (item : Item) (structureSeries : list Dimension) :
    option (option Column) :=
  specialDimensions ← _specialDimensions item;
  match regionDimensionIndex specialDimensions with
  | None => Some None
  | Some regionIndex =>
      regionDimension ← structureSeries !! regionIndex;
      let regions := (λ value, CString (val_id value)) <$> dim_values regionDimension in
      regionTypeId ← getRegionTypeId item structureSeries;
      regionTypeId ← regionTypeId;
      let regionColumnName := getRegionColumnName regionTypeId in
      Some (Some (TableColumn regionColumnName regions))
  end.

(** [defined(series[key]) ? series[key].observations[0][0] : null]. *)
Definition observationValue (series : gmap string SeriesEntry) (key : string) :
    option Cell :=
  match series !! key with
  | Some entry =>
      first ← observations entry !! 0;
      Some (default CUndefined (first !! 0))
  | None => Some CNull
  end.

(** The loop over the regions in [buildValueColumns].  [dimensionIndices]
    is the combination itself, written in place at the region slot on
    every turn. *)
Fixpoint regionLoop (series : gmap string SeriesEntry) (regionSlot : nat)
    (regionIndices : list nat) (dimensionIndices : list (option nat))
    (values : list Cell) : option (list (option nat) * list Cell) :=
  match regionIndices with
  | [] => Some (dimensionIndices, values)
  | regionIndex :: rest =>
      let dimensionIndices := js_set regionSlot regionIndex dimensionIndices in
      let key := joinIndices ":" dimensionIndices in
      value ← observationValue series key;
      regionLoop series regionSlot rest dimensionIndices (values ++ [value])
  end.

(** The body of the loop over the combinations; [names] is
    [shownDimensionCombinations.names[combinationIndex]]. *)
Definition buildValueColumn (uniqueValue : bool)
    (structureSeries : list Dimension) (series : gmap string SeriesEntry)
    (specialDimensions : SpecialDimensions) (dimensionIndices : list nat)
    (names : option (list string)) : option Column :=
  names ← names;
  let dimensionName :=
    if uniqueValue then "Value"
    else joinStrings " " (Some <$> List.filter (λ name, negb (String.eqb name "")) names) in
  regionSlot ← regionDimensionIndex specialDimensions;
  regionDimension ← structureSeries !! regionSlot;
  let regionCount := length (dim_values regionDimension) in
  written ← regionLoop series regionSlot (range regionCount) (Some <$> dimensionIndices) [];
  let column := TableColumn dimensionName written.2 in
  Some (if uniqueValue then setActive column else column).

Fixpoint valueColumnsLoop (uniqueValue : bool)
    (structureSeries : list Dimension) (series : gmap string SeriesEntry)
    (specialDimensions : SpecialDimensions) (values : list (list nat))
    (names : list (list string)) : option (list Column) :=
  match values with
  | [] => Some []
  | dimensionIndices :: values' =>
      column ← buildValueColumn uniqueValue structureSeries series
                 specialDimensions dimensionIndices (head names);
      rest ← valueColumnsLoop uniqueValue structureSeries series
               specialDimensions values' (tail names);
      Some (column :: rest)
  end.

Definition buildValueColumns (shownDimensionCombinations : Combinations)
    (structureSeries : list Dimension) (series : gmap string SeriesEntry)
    (specialDimensions : SpecialDimensions) : option (list Column) :=
  let uniqueValue :=
    bool_decide (length (sdc_values shownDimensionCombinations) ≤ 1) in
  valueColumnsLoop uniqueValue structureSeries series specialDimensions
    (sdc_values shownDimensionCombinations)
    (sdc_names shownDimensionCombinations).

(** ** Total column *)

(** [TableColumn.sumValues] (lib/Map/TableColumn) is not under src/: the
    element-wise sum of the values of the columns it is given.  It is a
    parameter of the model, and it may raise: [None] is the exception. *)
Variable sumValues : list Column → option (list Cell).

(** [a.filter(cb)] with [cb(element, index)] on a dense array, for a
    callback that does not raise. *)
Fixpoint filterWithIndex_from {A} (cb : A → nat → bool) (i : nat) (a : list A) :
    list A :=
  match a with
  | [] => []
  | x :: a' =>
      if cb x i then x :: filterWithIndex_from cb (S i) a'
      else filterWithIndex_from cb (S i) a'
  end.

Definition filterWithIndex {A} (cb : A → nat → bool) (a : list A) : list A :=
  filterWithIndex_from cb 0 a.

(** Map the active concepts into arrays of arrays.
    Eg. Return [[0, 2], [1]] if the first & third values of the first
    concept are selected, and the second of the second. *)
Definition calculateActiveConceptValues (concepts : list Concept) :
    list (list nat) :=
  (λ parent,
     List.filter
       (λ i, from_option vc_isActive false (items parent !! i))
       (seq 0 (length (items parent))))
  <$> concepts.

(** The positions in [item._combinations] that [buildTotalColumns] finds for
    the active combinations, [-1] for a combination it does not find. *)
Definition calculateIndicesIntoCombinations (combinations : list (list nat))
    (activeCombinations : list (list nat)) : list Z :=
  let stringifiedCombinations :=
    (λ combination, joinIndices "," (Some <$> combination)) <$> combinations in
  (λ activeCombination,
     let stringifiedActiveCombination :=
       joinIndices "," (Some <$> activeCombination) in
     indexOf stringifiedCombinations stringifiedActiveCombination)
  <$> activeCombinations.

(** The columns that [buildTotalColumns] hands to [sumValues]. *)
Definition includedColumns (item : Item) (combinations : list (list nat)) :
    list Column :=
  let activeConceptValues := calculateActiveConceptValues (_concepts item) in
  let activeCombinations := arrayProduct activeConceptValues in
  let indicesIntoCombinations :=
    calculateIndicesIntoCombinations combinations activeCombinations in
  let valueColumns := sliceArray (columns item) 1 (length combinations + 1) in
  filterWithIndex
    (λ _ i, (0 <=? indexOf indicesIntoCombinations (Z.of_nat i))%Z)
    valueColumns.

Definition buildTotalColumns (item : Item) : option (list Column) :=
  let activeConceptValues := calculateActiveConceptValues (_concepts item) in
  if decide (length activeConceptValues = 0) then Some []
  else
    combinations ← _combinations item;
    summed ← sumValues (includedColumns item combinations);
    let totalColumn := TableColumn "Total selected" summed in
    Some [setActive totalColumn].

(** ** Reactive recompute controller *)

(** [updateColumns]; the picked features that it also clears belong to the
    host application. *)
Definition updateColumns (item : Item) (newColumns : list Column) :
    list Effect * Item :=
  (if decide (length newColumns = 0)
   then [HideImageryLayer; NotifyRepaintRequired] else [],
   set_columns item newColumns).

(** The callback of the [map] in [calculateDimensionRequestString], run
    over the dimensions in order; [nextConceptIndex] is the counter that
    the callback advances.  An id looked up past the end of [theseIds] is
    [undefined]. *)
Fixpoint activeDimensionValuesLoop (item : Item)
    (activeConceptValues : list (list nat))
    (dimensionIndex nextConceptIndex : nat)
    (nonTimeDimensionIds : list (list string)) :
    option (list (list (option string))) :=
  match nonTimeDimensionIds with
  | [] => Some []
  | theseIds :: rest =>
      special ← _specialDimensions item;
      if decide (Some dimensionIndex = regionDimensionIndex special) then
        more ← activeDimensionValuesLoop item activeConceptValues
                 (S dimensionIndex) nextConceptIndex rest;
        Some ([Some ""] :: more)
      else if decide (length theseIds = 1) then
        more ← activeDimensionValuesLoop item activeConceptValues
                 (S dimensionIndex) nextConceptIndex rest;
        Some ((Some <$> theseIds) :: more)
      else
        match activeConceptValues !! nextConceptIndex with
        | None => None
        | Some active =>
            more ← activeDimensionValuesLoop item activeConceptValues
                     (S dimensionIndex) (S nextConceptIndex) rest;
            Some (((λ activeIndex, theseIds !! activeIndex) <$> active) :: more)
        end
  end.

Definition calculateDimensionRequestString (item : Item) : option string :=
  let activeConceptValues := calculateActiveConceptValues (_concepts item) in
  info ← _dimensionInfo item;
  nonTimeDimensionIds ← js_filter (getNonTimeDimensionFilter item) (di_ids info);
  activeDimensionValues ←
    activeDimensionValuesLoop item activeConceptValues 0 0 nonTimeDimensionIds;
  Some (joinStrings "."
          ((λ values, Some (joinStrings "+" values)) <$> activeDimensionValues)).

(** The last character of a string, [url[url.length - 1]]. *)
Fixpoint lastChar (s : string) : option ascii :=
  match s with
  | EmptyString => None
  | String a EmptyString => Some a
  | String _ s' => lastChar s'
  end.

(** The part of [loadAndBuildTable(item, url)] that runs at once: the
    request for the document.  The request goes through [cleanAndProxyUrl],
    a collaborator; the effect records the url that is handed to it. *)
Definition loadAndBuildTable (item : Item) (requested : option string) :
    list Effect :=
  [LoadJson (default (url item) requested)].

(** [changedActiveItems]: called when the active items change, by the
    subscription of the item to [activeConcepts].  The subscription belongs
    to the host library: a function of the model has the effects of its
    own body, not those of the subscribers that a write of
    [item._concepts] wakes. *)
Definition changedActiveItems (item : Item) : list Effect * option Item :=
  let announce := ConsoleLog ["changedActiveItems"] in
  match _dataflowUrl item with
  | None =>
      match _combinations item with
      | None => ([announce], None)
      | Some combinations =>
          let kept := sliceArray (columns item) 0 (length combinations + 1) in
          if decide (0 < length kept) then
            match buildTotalColumns item with
            | None => ([announce], None)
            | Some totalColumns =>
                let updated := updateColumns item (kept ++ totalColumns) in
                (announce :: updated.1, Some updated.2)
            end
          else ([announce], Some item)
      end
  | Some _ =>
      match calculateDimensionRequestString item with
      | None => ([announce], None)
      | Some dimensionRequestString =>
          let requestUrl := url item in
          let requestUrl :=
            if decide (lastChar requestUrl = Some "/"%char) then requestUrl
            else requestUrl +:+ "/" in
          let requestUrl := requestUrl +:+ dimensionRequestString +:+ "/all" in
          let wouldDownload := ConsoleLog ["Would download"; requestUrl] in
          let requestUrl := url item in
          (announce :: wouldDownload :: loadAndBuildTable item (Some requestUrl),
           Some item)
      end
  end.

(** ** Concept/combination bridge *)

(** [nonTrivialFilter], the callback local to
    [setConceptsAndCombinations]. *)
Definition nonTrivialFilter {A} (item : Item) (_ : A) (i : nat) : option bool :=
  info ← _dimensionInfo item;
  values ← js_get (di_values info) i;
  Some (bool_decide (1 < length values)).

(** The [map] that builds one concept per non-trivial dimension name, its
    children named by [nonTrivialNames[i]] and all active. *)
Fixpoint conceptsLoop (nonTrivialDimensionNames : list (option string))
    (nonTrivialNames : list (list string)) : option (list Concept) :=
  match nonTrivialDimensionNames with
  | [] => Some []
  | dimName :: rest =>
      valueNames ← head nonTrivialNames;
      more ← conceptsLoop rest (tail nonTrivialNames);
      Some ({| concept_name := dimName;
               items := (λ valueName,
                           {| vc_name := valueName; vc_isActive := true |})
                        <$> valueNames |} :: more)
  end.

Definition setConceptsAndCombinations (item : Item)
    (shownDimensionCombinations : Combinations) : option Item :=
  combinations ←
    mapM (λ combination, js_filter (nonTrivialFilter item) (Some <$> combination))
      (sdc_values shownDimensionCombinations);
  info ← _dimensionInfo item;
  nonTrivialDimensionNames ←
    js_filter (nonTrivialFilter item) (di_dimensionNames info);
  nonTrivialNames ← js_filter (nonTrivialFilter item) (di_names info);
  concepts ← conceptsLoop nonTrivialDimensionNames nonTrivialNames;
  Some (set_conceptsAndCombinations item combinations concepts).

(** ** Loading *)

(** The continuation of [loadDataflow] on the decoded dataflow document. *)
Definition loadDataflow_then (item : Item) (json : DataflowJson) :
    list Effect * option Item :=
  let structureSeries := structure_dimensions_observation json in
  let loaded :=
    ConsoleLog ["Loaded from dataflow"; default "" (_dataflowUrl item)] in
  let special := calculateSpecialDimensions item structureSeries in
  let item := set_specialDimensions item special in
  match regionDimensionIndex special with
  | None => ([loaded; ConsoleLog ["No regions defined."]], Some item)
  | Some _ =>
      let decoded :=
        calculateShownDimensionNamesAndValues structureSeries (Some special) in
      (loaded :: decoded.1,
       info ← decoded.2;
       let item := set_dimensionInfo item info in
       shownDimensionCombinations ← calculateShownDimensionCombinations item;
       setConceptsAndCombinations item shownDimensionCombinations)
  end.

(** The continuation of [loadAndBuildTable] on the decoded data document.
    The region column is defined where it is used: the function has
    returned before when there is no region dimension. *)
Definition loadAndBuildTable_then (item : Item) (json : DataJson) :
    list Effect * option Item :=
  let structureSeries := structure_dimensions_series json in
  let series := dataSets0_series json in
  let special :=
    default (calculateSpecialDimensions item structureSeries)
      (_specialDimensions item) in
  let item := set_specialDimensions item special in
  match regionDimensionIndex special with
  | None => ([ConsoleLog ["No regions defined."]], Some item)
  | Some _ =>
      let decoded :=
        match _dimensionInfo item with
        | Some info => ([], Some info)
        | None =>
            calculateShownDimensionNamesAndValues structureSeries (Some special)
        end in
      match
        info ← decoded.2;
        let item := set_dimensionInfo item info in
        shownDimensionCombinations ← calculateShownDimensionCombinations item;
        item ← match _combinations item with
               | Some _ => Some item
               | None => setConceptsAndCombinations item shownDimensionCombinations
               end;
        regionColumn ← buildRegionColumn item structureSeries;
        valueColumns ← buildValueColumns shownDimensionCombinations
                         structureSeries series special;
        let item := set_columns item (option_list regionColumn ++ valueColumns) in
        totalColumns ← buildTotalColumns item;
        Some (updateColumns item (columns item ++ totalColumns))
      with
      | None => (decoded.1, None)
      | Some updated => (decoded.1 ++ updated.1 ++ [LoadRegionDetails], Some updated.2)
      end
  end.

(** [getDataflowUrl]: [None] is [undefined], the answer for a url that
    names the data itself; otherwise the url with the data component
    replaced by the dataflow component. *)
Definition getDataflowUrl (item : Item) : option string :=
  let dataUrlComponent := "/" +:+ dataUrlComponent item +:+ "/" in
  let dataUrlIndex := lastIndexOfString (url item) dataUrlComponent in
  if (0 <=? dataUrlIndex)%Z then
    let suffix :=
      slice (url item)
        (dataUrlIndex + Z.of_nat (String.length dataUrlComponent))%Z None in
    if ((0 <=? indexOfChar suffix "/")
        && (indexOfChar suffix "/" <? Z.of_nat (String.length suffix) - 1))%Z
    then None
    else
      let dataflowUrlComponent := "/" +:+ dataflowUrlComponent item +:+ "/" in
      Some (replaceFirst dataUrlComponent dataflowUrlComponent (url item))
  else None.

(** The properties of the item that a catalogue file may set before the
    item loads; [None] is [undefined]. *)
Record Settings := {
  given_url : string;
  given_regionTypeDimensionId : option string;
  given_regionDimensionId : option string;
  given_frequencyDimensionId : option string;
  given_timePeriodDimensionId : option string;
  given_dataUrlComponent : option string;
  given_dataflowUrlComponent : option string;
  given_regionType : option string
}.

(** The part of [loadDataflow(item)] that runs at once. *)
Definition loadDataflow (item : Item) : list Effect :=
  [LoadJson (default "" (_dataflowUrl item))].

(** [_load]: the defaults, an empty table, the choice between the two
    kinds of url, and the first request.  An empty string is not a
    dataflow url: the test is [if (this._dataflowUrl)]. *)
Definition _load (settings : Settings) : Item * list Effect :=
  let item :=
    {| url := given_url settings;
       _dataflowUrl := None;
       dataUrlComponent := default "data" (given_dataUrlComponent settings);
       dataflowUrlComponent :=
         default "dataflow" (given_dataflowUrlComponent settings);
       regionTypeDimensionId :=
         default "REGIONTYPE" (given_regionTypeDimensionId settings);
       regionDimensionId := default "REGION" (given_regionDimensionId settings);
       frequencyDimensionId :=
         default "FREQUENCY" (given_frequencyDimensionId settings);
       timePeriodDimensionId :=
         default "TIME_PERIOD" (given_timePeriodDimensionId settings);
       regionType := given_regionType settings;
       _specialDimensions := None;
       _dimensionInfo := None;
       _combinations := None;
       _concepts := [];
       columns := [] |} in
  let item :=
    {| url := url item;
       _dataflowUrl := getDataflowUrl item;
       dataUrlComponent := dataUrlComponent item;
       dataflowUrlComponent := dataflowUrlComponent item;
       regionTypeDimensionId := regionTypeDimensionId item;
       regionDimensionId := regionDimensionId item;
       frequencyDimensionId := frequencyDimensionId item;
       timePeriodDimensionId := timePeriodDimensionId item;
       regionType := regionType item;
       _specialDimensions := _specialDimensions item;
       _dimensionInfo := _dimensionInfo item;
       _combinations := _combinations item;
       _concepts := _concepts item;
       columns := columns item |} in
  match _dataflowUrl item with
  | Some dataflowUrl =>
      if decide (dataflowUrl = "") then (item, loadAndBuildTable item None)
      else (item, loadDataflow item)
  | None => (item, loadAndBuildTable item None)
  end.

(** Modelled from the spec: the selection tree (lib/Map/VariableConcept) is
    not under src/.  Each child selection item is independently toggleable
    between active and inactive. *)
Definition toggleActive (concept : VariableConcept) : VariableConcept :=
  {| vc_name := vc_name concept; vc_isActive := negb (vc_isActive concept) |}.

Definition toggleChild (child : nat) (parent : Concept) : Concept :=
  {| concept_name := concept_name parent;
     items := alter toggleActive child (items parent) |}.

Definition toggle (parent child : nat) (item : Item) : Item :=
  set_concepts item (alter (toggleChild child) parent (_concepts item)).

End Model.

(** ** The earlier revision of the file *)

(** The repository also holds an earlier revision of the same file, without
    the dataflow topology and without a time-period role.  Its resolver,
    its decoder and its enumerator are embedded here; its
    [buildValueColumns] and [buildTotalColumns] are those of the later
    revision, but for the region count, which the resolver records. *)
Module Earlier.

(** In this revision [getRegionColumnName] does not lower-case its
    argument: [buildRegionColumn] lower-cases the region-type id before
    the call. *)
Definition getRegionColumnName (regionTypeId : string) : string :=
  let underscoreIndex := lastIndexOf regionTypeId "_"%char in
  if (0 <=? underscoreIndex)%Z then
    slice regionTypeId 0 (Some underscoreIndex) +:+ "_code"
      +:+ slice regionTypeId underscoreIndex None
  else
    regionTypeId +:+ "_code".

(** The name that [buildRegionColumn] gives the region column;
    [toLowerCase] is the builtin. *)
Definition regionColumnName (toLowerCase : string → string)
    (rawRegionTypeId : string) : string :=
  let regionTypeId := toLowerCase rawRegionTypeId in
  getRegionColumnName regionTypeId.

(** The output of [calculateRegionDimensionInfo]. *)
Record RegionInfo := {
  regionDimensionIndex : option nat;
  regionTypeDimensionIndex : option nat;
  regionCount : nat;
  regionTypeCount : nat
}.

Definition regionStep (regionId regionTypeId : string) (result : RegionInfo)
    (entry : Dimension) : RegionInfo :=
  if decide (dim_id entry = regionId) then
    {| regionDimensionIndex := Some (keyPosition entry);
       regionTypeDimensionIndex := regionTypeDimensionIndex result;
       regionCount := length (dim_values entry);
       regionTypeCount := regionTypeCount result |}
  else if decide (dim_id entry = regionTypeId) then
    {| regionDimensionIndex := regionDimensionIndex result;
       regionTypeDimensionIndex := Some (keyPosition entry);
       regionCount := regionCount result;
       regionTypeCount := length (dim_values entry) |}
  else result.

(** [calculateRegionDimensionInfo(item, structureSeries)], given the two
    role ids of the item. *)
Definition calculateRegionDimensionInfo (regionId regionTypeId : string)
    (structureSeries : list Dimension) : RegionInfo :=
  fold_left (regionStep regionId regionTypeId) structureSeries
    {| regionDimensionIndex := None; regionTypeDimensionIndex := None;
       regionCount := 0; regionTypeCount := 0 |}.

(** The output of [calculateDimensionNamesAndValues]. *)
Record DimensionInfo := {
  values : list (option (list nat));
  names : list (option (list string));
  dimensionNames : list (option (option string))
}.

Definition decodeStep (result : DimensionInfo) (thisSeries : Dimension) :
    DimensionInfo :=
  let slot := keyPosition thisSeries in
  let count := length (dim_values thisSeries) in
  {| values := js_set slot (range count) (values result);
     names :=
       js_set slot
         (if decide (1 < count) then val_name <$> dim_values thisSeries
          else [""])
         (names result);
     dimensionNames :=
       if decide (1 < count)
       then js_set slot (Some (dim_name thisSeries)) (dimensionNames result)
       else dimensionNames result |}.

(** [calculateDimensionNamesAndValues]: the lines it prints and the
    result. *)
Definition calculateDimensionNamesAndValues (structureSeries : list Dimension) :
    list string * DimensionInfo :=
  let count := length structureSeries in
  let result :=
    fold_left decodeStep structureSeries
      {| values := replicate count (Some []);
         names := replicate count (Some []);
         dimensionNames := replicate count (Some None) |} in
  let missing := js_indexOf (λ _ : list nat, false) (values result) in
  (if (0 <=? missing)%Z
   then ["Missing dimension at key position " +:+ pretty missing] else [],
   result).

(** The two writes by which [calculateNonRegionDimensionCombinations] holds
    a dimension to its first value. *)
Definition holdToFirst (index : option nat) (info : DimensionInfo) :
    option DimensionInfo :=
  match index with
  | None => Some info
  | Some index =>
      held ← js_get (values info) index;
      Some {| values := js_set index (take 1 held) (values info);
              names := js_set index [""] (names info);
              dimensionNames := dimensionNames info |}
  end.

(** [calculateNonRegionDimensionCombinations]: the dimension info as the
    function leaves it, and the combinations of values and of names.
    [arrayProduct] visits the slots that are present. *)
Definition calculateNonRegionDimensionCombinations (info : DimensionInfo)
    (regionInfo : RegionInfo) :
    option (DimensionInfo * (list (list nat) * list (list string))) :=
  info ← holdToFirst (regionDimensionIndex regionInfo) info;
  info ← holdToFirst (regionTypeDimensionIndex regionInfo) info;
  Some (info,
        (arrayProduct (omap id (values info)),
         arrayProduct (omap id (names info)))).

End Earlier.

(** ** The statements of the specification *)

(** The entries of a catalogue that satisfy [claims], and the first and the
    last of them. *)
Definition matching (claims : Dimension → bool) (structureSeries : list Dimension) :
    list Dimension :=
  List.filter claims structureSeries.

Definition firstMatch (claims : Dimension → bool)
    (structureSeries : list Dimension) : option Dimension :=
  head (matching claims structureSeries).

Definition lastMatch (claims : Dimension → bool)
    (structureSeries : list Dimension) : option Dimension :=
  last (matching claims structureSeries).

Definition hasId (roleId : string) (entry : Dimension) : bool :=
  bool_decide (dim_id entry = roleId).

Definition atKeyPosition (dim : nat) (entry : Dimension) : bool :=
  bool_decide (keyPosition entry = dim).

Section Statements.

Context {Num : Type}.

(** The entries that the chain of tests in [calculateSpecialDimensions]
    gives to each role: an entry is tested for the region role first, then
    for the region-type role, then for the time-period role. *)
Definition claimsRegion (item : @Item Num) (entry : Dimension) : bool :=
  hasId (regionDimensionId item) entry.

Definition claimsRegionType (item : @Item Num) (entry : Dimension) : bool :=
  negb (claimsRegion item entry) && hasId (regionTypeDimensionId item) entry.

Definition claimsTimePeriod (item : @Item Num) (entry : Dimension) : bool :=
  negb (claimsRegion item entry) && negb (claimsRegionType item entry)
  && hasId (timePeriodDimensionId item) entry.

(** The length of slot [dim] of one of the arrays of a [DimensionInfo];
    [None] when the slot holds no array. *)
Definition slotLength {A} (a : list (option (list A))) (dim : nat) : option nat :=
  length <$> js_get a dim.

(** The invariant of the specification at [dim]:
    [values[dim].length === names[dim].length === ids[dim].length]. *)
Definition lengthsAgree (info : DimensionInfo) (dim : nat) : Prop :=
  slotLength (di_values info) dim = slotLength (di_names info) dim
  ∧ slotLength (di_names info) dim = slotLength (di_ids info) dim.

(** The value columns whose entry of [item._combinations], joined with
    commas, equals the joined form of some active combination. *)
Definition columnsOfActiveCombinations (item : @Item Num)
    (combinations : list (list nat)) : list Column :=
  let activeCombinations :=
    arrayProduct (calculateActiveConceptValues (_concepts item)) in
  let stringifiedActive :=
    (λ activeCombination, joinIndices "," (Some <$> activeCombination))
    <$> activeCombinations in
  let valueColumns := sliceArray (columns item) 1 (length combinations + 1) in
  filterWithIndex
    (λ _ i,
       match combinations !! i with
       | Some combination =>
           bool_decide (joinIndices "," (Some <$> combination) ∈ stringifiedActive)
       | None => false
       end)
    valueColumns.

(** The region slot of a combination in the words of the specification.
    A combination has one index for each dimension that the enumerator
    keeps, in keyPosition order; the index of the region dimension stands
    after the indices of the dimensions before it, the time-period
    dimension not counted. *)
Definition regionSlotOfSpec (special : SpecialDimensions) : option nat :=
  region ← regionDimensionIndex special;
  Some (match timePeriodDimensionIndex special with
        | Some time => if decide (time < region) then region - 1 else region
        | None => region
        end).

(** The key of a cell in the words of the specification: the combination
    with the region index substituted at its region slot, joined with
    colons. *)
Definition keyOfSpec (special : SpecialDimensions) (combination : list nat)
    (regionIndex : nat) : option string :=
  slot ← regionSlotOfSpec special;
  Some (joinIndices ":" (Some <$> <[slot := regionIndex]> combination)).

(** The region count in the words of the specification: the number of
    values of the region dimension, the entry of the catalogue that has the
    region role. *)
Definition regionCountOfSpec (item : @Item Num)
    (structureSeries : list Dimension) : option nat :=
  (λ entry, length (dim_values entry))
  <$> lastMatch (claimsRegion item) structureSeries.

(** Modelled from the spec: the total is the element-wise (region-wise) sum
    of the value columns.  [TableColumn.sumValues] is not under src/.  The
    cell of the total at a row is the sum of the cells that the columns
    have at that row; [sumCells] is the sum of the cells of one row, which
    the specification leaves open where a cell is [null].  There are as
    many rows as the first column has.  The specification does not say
    what the sum of no column is: it is [ofNoColumns] here, [None] when the
    call raises. *)
Definition rowOf (columns : list (@Column Num)) (row : nat) :
    list (@Cell Num) :=
  (λ column, default CUndefined (col_values column !! row)) <$> columns.

Definition sumValuesBy (sumCells : list (@Cell Num) → @Cell Num)
    (ofNoColumns : option (list (@Cell Num))) (columns : list (@Column Num)) :
    option (list (@Cell Num)) :=
  match columns with
  | [] => ofNoColumns
  | first :: _ =>
      Some ((λ row, sumCells (rowOf columns row))
            <$> range (length (col_values first)))
  end.

(** The sub-tuple of a combination in the words of the specification:
    the slots of the dimensions with more than one value are retained, the
    slots of the trivial dimensions are dropped. *)
Fixpoint dropTrivial (pools : list (list nat)) (combination : list nat) :
    list nat :=
  match pools, combination with
  | pool :: pools', index :: rest =>
      if decide (1 < length pool) then index :: dropTrivial pools' rest
      else dropTrivial pools' rest
  | _, _ => []
  end.

(** The filter expression in the words of the specification.  The
    dimensions are visited in keyPosition order and the time-period
    dimension is left out; the region dimension gives the empty token, a
    dimension with exactly one allowed value gives that id, and any other
    dimension gives the ids of its active selection items.  The concepts
    follow the dimensions that have a selection, in the same order. *)
Fixpoint requestTokens (special : SpecialDimensions)
    (activeConceptValues : list (list nat)) (dim : nat)
    (ids : list (option (list string))) : list (list (option string)) :=
  match ids with
  | [] => []
  | None :: rest => requestTokens special activeConceptValues (S dim) rest
  | Some theseIds :: rest =>
      if decide (Some dim = timePeriodDimensionIndex special) then
        requestTokens special activeConceptValues (S dim) rest
      else if decide (Some dim = regionDimensionIndex special) then
        [Some ""] :: requestTokens special activeConceptValues (S dim) rest
      else if decide (length theseIds = 1) then
        (Some <$> theseIds)
        :: requestTokens special activeConceptValues (S dim) rest
      else
        ((λ activeIndex, theseIds !! activeIndex)
         <$> default [] (head activeConceptValues))
        :: requestTokens special (tail activeConceptValues) (S dim) rest
  end.

Definition requestStringOfSpec (item : @Item Num) : option string :=
  info ← _dimensionInfo item;
  special ← _specialDimensions item;
  Some (joinStrings "."
          ((λ values, Some (joinStrings "+" values))
           <$> requestTokens special
                 (calculateActiveConceptValues (_concepts item)) 0 (di_ids info))).

(** The request that the specification expects from a change of the active
    items in the metadata-only topology. *)
Definition requestUrlOfSpec (item : @Item Num) : option string :=
  filterExpression ← calculateDimensionRequestString item;
  Some (url item +:+ "/" +:+ filterExpression +:+ "/all").

End Statements.

(** One sum of the cells of a row: the numbers are added, and a row
    without a number gives [null]. *)
Definition numberOf (cell : @Cell Z) : option Z :=
  match cell with
  | CNumber v => Some v
  | _ => None
  end.

Definition addCells (row : list (@Cell Z)) : @Cell Z :=
  match omap numberOf row with
  | [] => CNull
  | numbers => CNumber (foldr Z.add 0%Z numbers)
  end.

(** Lexicographic order on combinations. *)
Fixpoint lexLt (a b : list nat) : bool :=
  match a, b with
  | [], [] => false
  | [], _ :: _ => true
  | _ :: _, [] => false
  | x :: a', y :: b' => (x <? y) || ((x =? y) && lexLt a' b')
  end.

(** The enumeration order: every combination is below all that follow. *)
Definition lexicographic (l : list (list nat)) : Prop :=
  StronglySorted (λ a b, lexLt a b = true) l.

(** ** Catalogues and items used as examples *)

Definition value (valueId valueName : string) : NameAndId :=
  {| val_id := valueId; val_name := valueName |}.

(** The settings of a catalogue file that gives the url alone. *)
Definition urlAlone (itemUrl : string) : Settings :=
  {| given_url := itemUrl;
     given_regionTypeDimensionId := None; given_regionDimensionId := None;
     given_frequencyDimensionId := None; given_timePeriodDimensionId := None;
     given_dataUrlComponent := None; given_dataflowUrlComponent := None;
     given_regionType := None |}.

(** An item whose url names the data, as [_load] leaves it. *)
Definition directItem {Num} : @Item Num :=
  (_load
     (urlAlone
        "http://stat.abs.gov.au/sdmx-json/data/ABS_REGIONAL_LGA/CABEE_2.LGA2013.1+.A/all")).1.

(** An item whose url names the dataset only, as [_load] leaves it. *)
Definition dataflowItem {Num} : @Item Num :=
  (_load (urlAlone "http://stat.abs.gov.au/sdmx-json/data/ABS_REGIONAL_LGA")).1.

(** Three regions, one region type, two measures. *)
Definition birthsAndDeaths : list Dimension :=
  [ {| keyPosition := 0; dim_id := "REGION"; dim_name := "Region";
       dim_values := [value "R1" "One"; value "R2" "Two"; value "R3" "Three"] |};
    {| keyPosition := 1; dim_id := "REGIONTYPE"; dim_name := "Region type";
       dim_values := [value "LGA" "Local government area"] |};
    {| keyPosition := 2; dim_id := "MEASURE"; dim_name := "Measure";
       dim_values := [value "BD_2" "Births"; value "BD_4" "Deaths"] |} ].

Definition birthsAndDeathsJson : @DataJson Z :=
  {| structure_dimensions_series := birthsAndDeaths;
     dataSets0_series :=
       {[ "0:0:0" := {| observations := {[ 0 := [CNumber 10%Z] ]} |} ]} |}.

(** The time-period dimension at keyPosition 0, before two dimensions with
    a selection and the region dimension. *)
Definition timeFirst : list Dimension :=
  [ {| keyPosition := 0; dim_id := "TIME_PERIOD"; dim_name := "Time";
       dim_values := [value "2012" "2012"; value "2013" "2013"] |};
    {| keyPosition := 1; dim_id := "SEX"; dim_name := "Sex";
       dim_values := [value "F" "Females"; value "M" "Males"] |};
    {| keyPosition := 2; dim_id := "AGE"; dim_name := "Age";
       dim_values := [value "A" "0-14"; value "B" "15-64"; value "C" "65+"] |};
    {| keyPosition := 3; dim_id := "REGION"; dim_name := "Region";
       dim_values := [value "R1" "One"; value "R2" "Two"] |} ].

(** One observation for a key [t:s:a:r]. *)
Definition observed (v : Z) : @SeriesEntry Z :=
  {| observations := {[ 0 := [CNumber v] ]} |}.

(** The observations of the females and of the males aged 0-14, in both
    years and both regions. *)
Definition timeFirstJson : @DataJson Z :=
  {| structure_dimensions_series := timeFirst;
     dataSets0_series :=
       {[ "0:0:0:0" := observed 1; "0:0:0:1" := observed 10;
          "0:1:0:0" := observed 2; "0:1:0:1" := observed 20;
          "1:0:0:0" := observed 5; "1:0:0:1" := observed 50;
          "1:1:0:0" := observed 7; "1:1:0:1" := observed 70 ]} |}.

(** The time-period dimension at keyPosition 0, before the region
    dimension and the measures; the one observation has the key [0:1]. *)
Definition timeRegionMeasure : list Dimension :=
  [ {| keyPosition := 0; dim_id := "TIME_PERIOD"; dim_name := "Time";
       dim_values := [value "2012" "2012"; value "2013" "2013"] |};
    {| keyPosition := 1; dim_id := "REGION"; dim_name := "Region";
       dim_values := [value "R1" "One"; value "R2" "Two"] |};
    {| keyPosition := 2; dim_id := "MEASURE"; dim_name := "Measure";
       dim_values := [value "BD_2" "Births"; value "BD_4" "Deaths"] |} ].

Definition timeRegionMeasureSeries : gmap string (@SeriesEntry Z) :=
  {[ "0:1" := observed 7 ]}.

(** A catalogue whose entries are not in keyPosition order: the three
    measures, at keyPosition 1, come before the two regions, at
    keyPosition 0. *)
Definition measuresBeforeRegions : list Dimension :=
  [ {| keyPosition := 1; dim_id := "MEASURE"; dim_name := "Measure";
       dim_values :=
         [value "BD_2" "Births"; value "BD_4" "Deaths"; value "BD_6" "Marriages"] |};
    {| keyPosition := 0; dim_id := "REGION"; dim_name := "Region";
       dim_values := [value "R1" "One"; value "R2" "Two"] |} ].

(** A dataflow: two measures, one frequency, two regions. *)
Definition measuresDataflow : DataflowJson :=
  {| structure_dimensions_observation :=
       [ {| keyPosition := 0; dim_id := "MEASURE"; dim_name := "Measure";
            dim_values := [value "BD_2" "Births"; value "BD_4" "Deaths"] |};
         {| keyPosition := 1; dim_id := "FREQUENCY"; dim_name := "Frequency";
            dim_values := [value "A" "Annual"] |};
         {| keyPosition := 2; dim_id := "REGION"; dim_name := "Region";
            dim_values := [value "R1" "One"; value "R2" "Two"] |} ] |}.

(** A dataflow without a region dimension: two measures and one
    frequency. *)
Definition measuresOnly : list Dimension :=
  [ {| keyPosition := 0; dim_id := "MEASURE"; dim_name := "Measure";
       dim_values := [value "BD_2" "Births"; value "BD_4" "Deaths"] |};
    {| keyPosition := 1; dim_id := "FREQUENCY"; dim_name := "Frequency";
       dim_values := [value "A" "Annual"] |} ].

(** A dataflow with the time-period dimension before the region
    dimension. *)
Definition timeFirstDataflow : DataflowJson :=
  {| structure_dimensions_observation :=
       [ {| keyPosition := 0; dim_id := "TIME_PERIOD"; dim_name := "Time";
            dim_values := [value "2013" "2013"] |};
         {| keyPosition := 1; dim_id := "REGION"; dim_name := "Region";
            dim_values := [value "R1" "One"; value "R2" "Two"; value "R3" "Three"] |};
         {| keyPosition := 2; dim_id := "MEASURE"; dim_name := "Measure";
            dim_values := [value "BD_2" "Births"; value "BD_4" "Deaths"] |} ] |}.

(** Two entries and no entry at keyPosition 1. *)
Definition gapCatalogue : list Dimension :=
  [ {| keyPosition := 0; dim_id := "REGION"; dim_name := "Region";
       dim_values := [value "R1" "One"; value "R2" "Two"] |};
    {| keyPosition := 2; dim_id := "MEASURE"; dim_name := "Measure";
       dim_values := [value "BD_2" "Births"; value "BD_4" "Deaths"] |} ].

(** Two entries at keyPosition 0 and no entry at keyPosition 1. *)
Definition duplicateCatalogue : list Dimension :=
  [ {| keyPosition := 0; dim_id := "REGION"; dim_name := "Region";
       dim_values := [value "R1" "One"; value "R2" "Two"] |};
    {| keyPosition := 0; dim_id := "MEASURE"; dim_name := "Measure";
       dim_values := [value "BD_2" "Births"; value "BD_4" "Deaths"] |} ].

(** Two entries with the id of the region role. *)
Definition twoRegionDimensions : list Dimension :=
  [ {| keyPosition := 0; dim_id := "REGION"; dim_name := "Local government area";
       dim_values := [value "L1" "One"; value "L2" "Two"] |};
    {| keyPosition := 1; dim_id := "REGION"; dim_name := "State";
       dim_values := [value "S1" "One"] |};
    {| keyPosition := 2; dim_id := "MEASURE"; dim_name := "Measure";
       dim_values := [value "BD_2" "Births"; value "BD_4" "Deaths"] |} ].

(** A catalogue with a dimension that has no value. *)
Definition emptyDimension : list Dimension :=
  [ {| keyPosition := 0; dim_id := "REGION"; dim_name := "Region";
       dim_values := [value "R1" "One"] |};
    {| keyPosition := 1; dim_id := "MEASURE"; dim_name := "Measure";
       dim_values := [] |} ].

(** A dataflow whose dimensions, once the region dimension is held to one
    value, have 1, 1, 3 and 2 values. *)
Definition fourDimensionsDataflow : DataflowJson :=
  {| structure_dimensions_observation :=
       [ {| keyPosition := 0; dim_id := "REGION"; dim_name := "Region";
            dim_values := [value "R1" "One"; value "R2" "Two"] |};
         {| keyPosition := 1; dim_id := "REGIONTYPE"; dim_name := "Region type";
            dim_values := [value "LGA_2013" "Local government area"] |};
         {| keyPosition := 2; dim_id := "AGE"; dim_name := "Age";
            dim_values := [value "A" "0-14"; value "B" "15-64"; value "C" "65+"] |};
         {| keyPosition := 3; dim_id := "SEX"; dim_name := "Sex";
            dim_values := [value "F" "Females"; value "M" "Males"] |} ] |}.



(** The item once [loadAndBuildTable] has run on the table of three
    regions and two measures, and the same item with both measures toggled
    off. *)
Definition birthsAndDeathsItem : @Item Z :=
  default directItem
    (loadAndBuildTable_then lowerCaseAscii (sumValuesBy addCells None)
       directItem birthsAndDeathsJson).2.

Definition noMeasureSelected : @Item Z :=
  toggle 0 1 (toggle 0 0 birthsAndDeathsItem).

(** A dataflow with the time-period dimension last. *)
Definition timeLastDataflow : DataflowJson :=
  {| structure_dimensions_observation :=
       [ {| keyPosition := 0; dim_id := "REGION"; dim_name := "Region";
            dim_values := [value "R1" "One"; value "R2" "Two"] |};
         {| keyPosition := 1; dim_id := "AGE"; dim_name := "Age";
            dim_values := [value "A" "0-14"; value "B" "15-64"; value "C" "65+"] |};
         {| keyPosition := 2; dim_id := "SEX"; dim_name := "Sex";
            dim_values := [value "F" "Females"; value "M" "Males"] |};
         {| keyPosition := 3; dim_id := "TIME_PERIOD"; dim_name := "Time";
            dim_values := [value "2012" "2012"; value "2013" "2013"] |} ] |}.

(** * Properties *)

(** ** Strings: the last occurrence and the two slices around it *)

Section StringFacts.

Variable c : ascii.

Lemma lastIndexOf_from_absent s i found :
  absent c s = true → lastIndexOf_from c s i found = found.
Proof.
  revert i found. induction s as [|a s IH]; intros i found; simpl; [done|].
  intros [Ha Hs]%andb_prop. rewrite IH by done.
  by destruct (Ascii.eqb a c).
Qed.

Lemma lastIndexOf_from_split pre suf i found :
  absent c suf = true →
  lastIndexOf_from c (pre +:+ String c suf) i found
  = (i + Z.of_nat (String.length pre))%Z.
Proof.
  revert i found. induction pre as [|a pre IH]; intros i found Hsuf; simpl.
  - rewrite Ascii.eqb_refl, lastIndexOf_from_absent by done. lia.
  - unfold String.app in *. simpl. rewrite IH by done. lia.
Qed.

Lemma lastIndexOf_split pre suf :
  absent c suf = true →
  lastIndexOf (pre +:+ String c suf) c = Z.of_nat (String.length pre).
Proof.
  intros. unfold lastIndexOf. rewrite lastIndexOf_from_split by done. lia.
Qed.

Lemma lastIndexOf_absent s :
  absent c s = true → lastIndexOf s c = (-1)%Z.
Proof. apply lastIndexOf_from_absent. Qed.

End StringFacts.

Lemma string_take_app_length pre suf :
  string_take (String.length pre) (pre +:+ suf) = pre.
Proof.
  induction pre as [|a pre IH]; simpl.
  - by destruct suf.
  - unfold String.app in *. simpl. by rewrite IH.
Qed.

Lemma string_drop_app_length pre suf :
  string_drop (String.length pre) (pre +:+ suf) = suf.
Proof.
  induction pre as [|a pre IH]; simpl; [done|].
  unfold String.app in *. simpl. by rewrite IH.
Qed.

Lemma string_take_all s n : String.length s ≤ n → string_take n s = s.
Proof.
  revert n. induction s as [|a s IH]; intros [|n] Hn; simpl in *;
    try done; try lia.
  rewrite IH; [done|lia].
Qed.

Lemma length_app_string s1 s2 :
  String.length (s1 +:+ s2) = String.length s1 + String.length s2.
Proof.
  induction s1 as [|a s1 IH]; simpl; [done|].
  unfold String.app in *. simpl. by rewrite IH.
Qed.

Lemma slice_prefix pre suf :
  slice (pre +:+ suf) 0 (Some (Z.of_nat (String.length pre))) = pre.
Proof.
  unfold slice, clampIndex. simpl.
  destruct (Z.ltb_spec (Z.of_nat (String.length pre)) 0); [lia|].
  rewrite Nat2Z.id, length_app_string, Nat.min_l, Nat.sub_0_r by lia.
  apply string_take_app_length.
Qed.

Lemma slice_suffix pre suf :
  slice (pre +:+ suf) (Z.of_nat (String.length pre)) None = suf.
Proof.
  unfold slice, clampIndex. simpl.
  destruct (Z.ltb_spec (Z.of_nat (String.length pre)) 0); [lia|].
  rewrite Nat2Z.id, length_app_string, Nat.min_l by lia.
  rewrite string_drop_app_length. apply string_take_all. lia.
Qed.

(** ** Region column naming *)

(** C4.  [getRegionColumnName] lower-cases the region-type id, whatever
    string it is, with the builtin [toLowerCase].  When the lower-cased id
    is [pre ++ "_" ++ suf] with no underscore in [suf], so that the
    underscore shown is the final one, the result is
    [pre ++ "_code" ++ "_" ++ suf]: the token [_code] stands immediately
    before the final underscore.  When the lower-cased id has no
    underscore, the result is the lower-cased id followed by [_code].
    With a builtin that lower-cases a string of ASCII characters letter by
    letter, [LGA_2013], [LGA] and [SA4] give [lga_code_2013], [lga_code]
    and [sa4_code]. *)
Theorem getRegionColumnName_convention (toLowerCase : string → string) :
  (∀ regionTypeId pre suf,
      toLowerCase regionTypeId = pre +:+ String "_" suf →
      absent "_" suf = true →
      getRegionColumnName toLowerCase regionTypeId
      = pre +:+ "_code" +:+ String "_" suf)
  ∧ (∀ regionTypeId,
      absent "_" (toLowerCase regionTypeId) = true →
      getRegionColumnName toLowerCase regionTypeId
      = toLowerCase regionTypeId +:+ "_code")
  ∧ ((∀ s, isAscii s = true → toLowerCase s = lowerCaseAscii s) →
     getRegionColumnName toLowerCase "LGA_2013" = "lga_code_2013"
     ∧ getRegionColumnName toLowerCase "LGA" = "lga_code"
     ∧ getRegionColumnName toLowerCase "SA4" = "sa4_code").
Proof.
  split; [|split].
  - intros regionTypeId pre suf Hlow Hsuf. unfold getRegionColumnName.
    rewrite Hlow, lastIndexOf_split by done.
    destruct (Z.leb_spec 0 (Z.of_nat (String.length pre))); [|lia].
    by rewrite slice_prefix, slice_suffix.
  - intros regionTypeId Hno. unfold getRegionColumnName.
    by rewrite lastIndexOf_absent.
  - intros Hascii. unfold getRegionColumnName.
    rewrite (Hascii "LGA_2013"), (Hascii "LGA"), (Hascii "SA4") by done.
    by vm_compute.
Qed.

Lemma getRegionColumnName_convention_witness :
  getRegionColumnName lowerCaseAscii "SA2_2011" = "sa2_code_2011"
  ∧ getRegionColumnName lowerCaseAscii "CED" = "ced_code"
  ∧ getRegionColumnName lowerCaseAscii "LGA_2013" = "lga_code_2013".
Proof.
  split; [|split].
  - apply (proj1 (getRegionColumnName_convention lowerCaseAscii)
             "SA2_2011" "sa2" "2011"); reflexivity.
  - apply (proj1 (proj2 (getRegionColumnName_convention lowerCaseAscii)) "CED");
      reflexivity.
  - apply (proj2 (proj2 (getRegionColumnName_convention lowerCaseAscii))).
    intros s _. reflexivity.
Defined.

(** Two builtins that agree on the lower-cased form of an id give the
    region column the same name. *)
Lemma getRegionColumnName_ext (toLowerCase toLowerCase' : string → string)
    regionTypeId :
  toLowerCase regionTypeId = toLowerCase' regionTypeId →
  getRegionColumnName toLowerCase regionTypeId
  = getRegionColumnName toLowerCase' regionTypeId.
Proof. intros Hsame. unfold getRegionColumnName. by rewrite Hsame. Qed.

(** In the earlier revision the caller lower-cases, and the name of the
    region column is the same. *)
Lemma earlier_regionColumnName (toLowerCase : string → string) rawRegionTypeId :
  Earlier.regionColumnName toLowerCase rawRegionTypeId
  = getRegionColumnName toLowerCase rawRegionTypeId.
Proof. reflexivity. Qed.

(** ** Arrays written by index *)

Section ArrayFacts.

Context {A : Type}.
Implicit Types (a : list (option A)) (i j : nat) (v : A).

Lemma js_get_set_eq a i v : js_get (js_set i v a) i = Some v.
Proof.
  unfold js_get, js_set. case_decide as Hi.
  - by rewrite list_lookup_insert_eq.
  - rewrite lookup_app_r by lia. rewrite lookup_app_r; rewrite length_replicate;
      [|lia]. by replace (i - length a - (i - length a)) with 0 by lia.
Qed.

Lemma js_get_set_ne a i j v : i ≠ j → js_get (js_set i v a) j = js_get a j.
Proof.
  intros Hij. unfold js_get, js_set. case_decide as Hi.
  - by rewrite list_lookup_insert_ne.
  - destruct (decide (j < length a)) as [Hj|Hj].
    + by rewrite lookup_app_l.
    + rewrite (lookup_ge_None_2 a j) by lia. rewrite lookup_app_r by lia.
      destruct (decide (j - length a < i - length a)) as [Hlt|Hge].
      * rewrite lookup_app_l by (rewrite length_replicate; lia).
        by rewrite lookup_replicate_2.
      * rewrite lookup_app_r by (rewrite length_replicate; lia).
        rewrite length_replicate.
        rewrite lookup_ge_None_2; [done|]. simpl. lia.
Qed.

Lemma js_get_set a i j v :
  js_get (js_set i v a) j = if decide (i = j) then Some v else js_get a j.
Proof.
  case_decide as Hij; [subst; apply js_get_set_eq|by apply js_get_set_ne].
Qed.

Lemma length_js_set a i v : length (js_set i v a) = length a `max` S i.
Proof.
  unfold js_set. case_decide.
  - rewrite length_insert. lia.
  - rewrite !length_app, length_replicate. simpl. lia.
Qed.

(** A second write to the same slot replaces the first. *)
Lemma js_set_set a i v v' : js_set i v (js_set i v' a) = js_set i v a.
Proof.
  unfold js_set at 1. rewrite length_js_set.
  rewrite decide_True by lia. unfold js_set. case_decide as Hi.
  - by rewrite list_insert_insert_eq.
  - rewrite insert_app_r_alt by lia.
    rewrite insert_app_r_alt by (rewrite length_replicate; lia).
    rewrite length_replicate.
    by replace (i - length a - (i - length a)) with 0 by lia.
Qed.

Lemma js_get_replicate n (x : option A) i :
  js_get (replicate n x) i = if decide (i < n) then x else None.
Proof.
  unfold js_get. case_decide.
  - by rewrite lookup_replicate_2.
  - by rewrite lookup_ge_None_2 by (rewrite length_replicate; lia).
Qed.

Lemma js_indexOf_from_never a z :
  js_indexOf_from (λ _ : A, false) a z = (-1)%Z.
Proof. revert z. induction a as [|[x|] a IH]; intros z; simpl; auto. Qed.

End ArrayFacts.

(** ** First and last matching entries *)

Lemma lastMatch_snoc claims structureSeries entry :
  lastMatch claims (structureSeries ++ [entry])
  = if claims entry then Some entry else lastMatch claims structureSeries.
Proof.
  unfold lastMatch, matching. rewrite List.filter_app. simpl.
  destruct (claims entry); [apply last_snoc|by rewrite app_nil_r].
Qed.

Lemma lastMatch_Some claims structureSeries entry :
  lastMatch claims structureSeries = Some entry →
  entry ∈ structureSeries ∧ claims entry = true.
Proof.
  induction structureSeries as [|other structureSeries IH] using rev_ind;
    [done|].
  rewrite lastMatch_snoc. destruct (claims other) eqn:Hother.
  - intros [= <-]. split; [|done]. apply elem_of_app. right. by left.
  - intros Hlast. apply IH in Hlast as [Hin ?]. split; [|done].
    apply elem_of_app. by left.
Qed.

Lemma lastMatch_is_Some claims structureSeries entry :
  entry ∈ structureSeries → claims entry = true →
  is_Some (lastMatch claims structureSeries).
Proof.
  induction structureSeries as [|other structureSeries IH] using rev_ind.
  - by intros ?%elem_of_nil.
  - intros Hin Hentry. rewrite lastMatch_snoc.
    destruct (claims other) eqn:Hother; [by eexists|].
    apply elem_of_app in Hin as [Hin|Hin%list_elem_of_singleton]; [by apply IH|].
    congruence.
Qed.

(** ** Special-role resolver *)

Section SpecialRoles.

Context {Num : Type}.
Implicit Types (item : @Item Num) (structureSeries : list Dimension).

Lemma calculateSpecialDimensions_snoc item structureSeries entry :
  calculateSpecialDimensions item (structureSeries ++ [entry])
  = specialStep item (calculateSpecialDimensions item structureSeries) entry.
Proof. unfold calculateSpecialDimensions. by rewrite fold_left_app. Qed.

(** The recorded indices are keyPositions of entries of the catalogue. *)
Lemma regionDimensionIndex_entry item structureSeries dim :
  regionDimensionIndex (calculateSpecialDimensions item structureSeries)
    = Some dim →
  ∃ entry, entry ∈ structureSeries ∧ keyPosition entry = dim.
Proof.
  induction structureSeries as [|entry structureSeries IH] using rev_ind;
    [done|].
  rewrite calculateSpecialDimensions_snoc. unfold specialStep.
  assert (Hearlier :
    regionDimensionIndex (calculateSpecialDimensions item structureSeries)
      = Some dim →
    ∃ entry0, entry0 ∈ structureSeries ++ [entry] ∧ keyPosition entry0 = dim).
  { intros (entry0 & Hin & Hdim)%IH. exists entry0.
    split; [|done]. apply elem_of_app. by left. }
  repeat case_decide; simpl; try done.
  intros [= <-]. exists entry. split; [|done].
  apply elem_of_app. right. by left.
Qed.

Lemma timePeriodDimensionIndex_entry item structureSeries dim :
  timePeriodDimensionIndex (calculateSpecialDimensions item structureSeries)
    = Some dim →
  ∃ entry, entry ∈ structureSeries ∧ keyPosition entry = dim.
Proof.
  induction structureSeries as [|entry structureSeries IH] using rev_ind;
    [done|].
  rewrite calculateSpecialDimensions_snoc. unfold specialStep.
  assert (Hearlier :
    timePeriodDimensionIndex (calculateSpecialDimensions item structureSeries)
      = Some dim →
    ∃ entry0, entry0 ∈ structureSeries ++ [entry] ∧ keyPosition entry0 = dim).
  { intros (entry0 & Hin & Hdim)%IH. exists entry0.
    split; [|done]. apply elem_of_app. by left. }
  repeat case_decide; simpl; try done.
  intros [= <-]. exists entry. split; [|done].
  apply elem_of_app. right. by left.
Qed.

(** C6, as amended.  For every catalogue and each role, the resolver
    records the keyPosition of the last entry that the role takes, not of
    the first; an entry is taken by the region role when its id is the
    region id, else by the region-type role when its id is the region-type
    id, else by the time-period role when its id is the time-period id.
    Each role has one field, so one dimension at most is recorded per
    role; the count of region types is the number of values of the
    recorded region-type entry. *)
Theorem calculateSpecialDimensions_last_match item structureSeries :
  let special := calculateSpecialDimensions item structureSeries in
  regionDimensionIndex special
    = keyPosition <$> lastMatch (claimsRegion item) structureSeries
  ∧ regionTypeDimensionIndex special
    = keyPosition <$> lastMatch (claimsRegionType item) structureSeries
  ∧ regionTypeCount special
    = from_option (λ entry, length (dim_values entry)) 0
        (lastMatch (claimsRegionType item) structureSeries)
  ∧ timePeriodDimensionIndex special
    = keyPosition <$> lastMatch (claimsTimePeriod item) structureSeries.
Proof.
  induction structureSeries as [|entry structureSeries IH] using rev_ind;
    [done|].
  simpl in *. destruct IH as (IHregion & IHtype & IHcount & IHtime).
  rewrite calculateSpecialDimensions_snoc, !lastMatch_snoc.
  unfold specialStep, claimsTimePeriod, claimsRegionType, claimsRegion, hasId.
  repeat case_decide;
    repeat (rewrite bool_decide_true by done);
    repeat (rewrite bool_decide_false by done); simpl; done.
Qed.

End SpecialRoles.

(** C6, the counterexample.  Of two entries with the id of the region role
    the resolver records the second, at keyPosition 1, and the first
    matching entry is at keyPosition 0. *)
Lemma first_match_does_not_win :
  regionDimensionIndex
      (calculateSpecialDimensions (@directItem Z) twoRegionDimensions)
    = Some 1
  ∧ keyPosition <$> firstMatch (hasId "REGION") twoRegionDimensions = Some 0
  ∧ regionDimensionIndex
      (calculateSpecialDimensions (@directItem Z) twoRegionDimensions)
    ≠ keyPosition <$> firstMatch (hasId "REGION") twoRegionDimensions.
Proof. by vm_compute. Qed.

(** ** Dimension catalogue decoder *)

Section Decoder.

Context {Num : Type}.
Implicit Types (item : @Item Num) (structureSeries : list Dimension).
Implicit Types (result info : @DimensionInfo).

(** The second loop of the decoder, one entry further. *)
Lemma decodeFrom_snoc result structureSeries entry :
  fold_left decodeStep (structureSeries ++ [entry]) result
  = decodeStep (fold_left decodeStep structureSeries result) entry.
Proof. by rewrite fold_left_app. Qed.

(** After the loop a slot holds what the last entry at that keyPosition
    has written, and what the first loop has left when there is none. *)
Lemma decodeFrom_values result structureSeries dim :
  js_get (di_values (fold_left decodeStep structureSeries result)) dim
  = match lastMatch (atKeyPosition dim) structureSeries with
    | Some entry => Some (range (length (dim_values entry)))
    | None => js_get (di_values result) dim
    end.
Proof.
  induction structureSeries as [|entry structureSeries IH] using rev_ind;
    [done|].
  rewrite decodeFrom_snoc, lastMatch_snoc. simpl.
  rewrite js_get_set, IH. unfold atKeyPosition.
  case_decide; [by rewrite bool_decide_true|by rewrite bool_decide_false].
Qed.

Lemma decodeFrom_names result structureSeries dim :
  js_get (di_names (fold_left decodeStep structureSeries result)) dim
  = match lastMatch (atKeyPosition dim) structureSeries with
    | Some entry =>
        Some (if decide (1 < length (dim_values entry))
              then val_name <$> dim_values entry else [""])
    | None => js_get (di_names result) dim
    end.
Proof.
  induction structureSeries as [|entry structureSeries IH] using rev_ind;
    [done|].
  rewrite decodeFrom_snoc, lastMatch_snoc. simpl.
  rewrite js_get_set, IH. unfold atKeyPosition.
  case_decide; [by rewrite bool_decide_true|by rewrite bool_decide_false].
Qed.

Lemma decodeFrom_ids result structureSeries dim :
  js_get (di_ids (fold_left decodeStep structureSeries result)) dim
  = match lastMatch (atKeyPosition dim) structureSeries with
    | Some entry => Some (val_id <$> dim_values entry)
    | None => js_get (di_ids result) dim
    end.
Proof.
  induction structureSeries as [|entry structureSeries IH] using rev_ind;
    [done|].
  rewrite decodeFrom_snoc, lastMatch_snoc. simpl.
  rewrite js_get_set, IH. unfold atKeyPosition.
  case_decide; [by rewrite bool_decide_true|by rewrite bool_decide_false].
Qed.

(** [removeIndex] at a slot that holds an array, seen slot by slot. *)
Lemma removeIndex_Some index result values :
  js_get (di_values result) index = Some values →
  ∃ info,
    removeIndex (Some index) result = Some info
    ∧ (∀ dim, js_get (di_values info) dim
              = if decide (index = dim) then Some (take 1 values)
                else js_get (di_values result) dim)
    ∧ (∀ dim, js_get (di_names info) dim
              = if decide (index = dim) then Some [""]
                else js_get (di_names result) dim)
    ∧ di_ids info = di_ids result.
Proof.
  intros Hvalues. unfold removeIndex. rewrite Hvalues. simpl.
  eexists. split; [done|]. simpl.
  repeat split; intros dim; apply js_get_set.
Qed.

(** The decoder prints nothing, whatever the catalogue: the test for a
    missing dimension looks for [undefined] among slots that hold arrays. *)
Lemma decoder_never_reports structureSeries (special : option SpecialDimensions) :
  (calculateShownDimensionNamesAndValues structureSeries special).1 = [].
Proof.
  unfold calculateShownDimensionNamesAndValues, js_indexOf. simpl.
  by rewrite js_indexOf_from_never.
Qed.

(** An entry at slot [dim] with an entry of the catalogue behind it. *)
Lemma slot_filled structureSeries entry :
  entry ∈ structureSeries →
  is_Some (lastMatch (atKeyPosition (keyPosition entry)) structureSeries).
Proof.
  intros Hin. eapply lastMatch_is_Some; [done|].
  unfold atKeyPosition. by rewrite bool_decide_true.
Qed.

(** C5, as amended.  Take a catalogue, a keyPosition [dim] that some entry
    has, and the last entry at [dim], with one value at least.  The
    decoder, given the special dimensions of the catalogue, returns a
    [DimensionInfo] in which [values[dim]] and [names[dim]] have the same
    length and [ids[dim]] has one id per value of the entry.  The length
    of [values[dim]] is that number as well, except at the recorded
    region and time-period dimensions, which are held to length 1 while
    their ids are kept. *)
Theorem decoder_lengths item structureSeries dim entry :
  lastMatch (atKeyPosition dim) structureSeries = Some entry →
  0 < length (dim_values entry) →
  let special := calculateSpecialDimensions item structureSeries in
  ∃ info,
    (calculateShownDimensionNamesAndValues structureSeries (Some special)).2
      = Some info
    ∧ slotLength (di_values info) dim = slotLength (di_names info) dim
    ∧ slotLength (di_ids info) dim = Some (length (dim_values entry))
    ∧ slotLength (di_values info) dim
      = Some (if bool_decide (regionDimensionIndex special = Some dim
                              ∨ timePeriodDimensionIndex special = Some dim)
              then 1 else length (dim_values entry)).
Proof.
  intros Hentry Hvalues special.
  unfold calculateShownDimensionNamesAndValues. simpl.
  set (decoded := fold_left decodeStep structureSeries _).
  assert (Hv : js_get (di_values decoded) dim
               = Some (range (length (dim_values entry)))).
  { unfold decoded. by rewrite decodeFrom_values, Hentry. }
  assert (Hn : length <$> js_get (di_names decoded) dim
               = Some (length (dim_values entry))).
  { unfold decoded. rewrite decodeFrom_names, Hentry. simpl.
    case_decide; simpl; [by rewrite length_fmap|f_equal; lia]. }
  assert (Hi : length <$> js_get (di_ids decoded) dim
               = Some (length (dim_values entry))).
  { unfold decoded. rewrite decodeFrom_ids, Hentry. simpl.
    by rewrite length_fmap. }
  assert (Hone : ∀ n, 0 < n → length (take 1 (range n)) = 1).
  { intros n Hpos. rewrite length_take. unfold range. rewrite length_seq. lia. }
  (* the region dimension *)
  assert (Hregion : ∃ info1,
    removeIndex (regionDimensionIndex special) decoded = Some info1
    ∧ (∀ d, is_Some (js_get (di_values decoded) d) →
            is_Some (js_get (di_values info1) d))
    ∧ slotLength (di_values info1) dim
      = Some (if bool_decide (regionDimensionIndex special = Some dim)
              then 1 else length (dim_values entry))
    ∧ slotLength (di_names info1) dim
      = Some (if bool_decide (regionDimensionIndex special = Some dim)
              then 1 else length (dim_values entry))
    ∧ di_ids info1 = di_ids decoded).
  { destruct (regionDimensionIndex special) as [region|] eqn:Hregion.
    - destruct (regionDimensionIndex_entry _ _ _ Hregion)
        as (regionEntry & Hin & <-).
      destruct (slot_filled _ _ Hin) as [lastEntry Hlast].
      destruct (removeIndex_Some (keyPosition regionEntry) decoded
                  (range (length (dim_values lastEntry))))
        as (info1 & -> & Hvalues1 & Hnames1 & Hids1).
      { unfold decoded. by rewrite decodeFrom_values, Hlast. }
      exists info1. split; [done|]. unfold slotLength.
      rewrite Hvalues1, Hnames1. split; [|split; [|split; [|done]]].
      + intros d Hd. rewrite Hvalues1. by case_decide.
      + case_decide as Hd.
        * subst dim. rewrite bool_decide_true by done. simpl.
          rewrite Hlast in Hentry. injection Hentry as ->.
          by rewrite Hone.
        * rewrite bool_decide_false by congruence.
          rewrite Hv. simpl. unfold range. by rewrite length_seq.
      + case_decide as Hd.
        * subst dim. by rewrite bool_decide_true.
        * by rewrite bool_decide_false by congruence.
    - exists decoded. split; [done|]. split; [done|]. unfold slotLength.
      rewrite Hv, Hn. simpl. unfold range. by rewrite length_seq. }
  destruct Hregion as (info1 & -> & Hkept & Hvalues1 & Hnames1 & Hids1).
  simpl.
  (* the time-period dimension *)
  destruct (timePeriodDimensionIndex special) as [time|] eqn:Htime.
  - destruct (timePeriodDimensionIndex_entry _ _ _ Htime)
      as (timeEntry & Hin & <-).
    destruct (slot_filled _ _ Hin) as [lastEntry Hlast].
    destruct (Hkept (keyPosition timeEntry)) as [timeValues HtimeValues].
    { unfold decoded. by rewrite decodeFrom_values, Hlast. }
    destruct (removeIndex_Some (keyPosition timeEntry) info1 timeValues
                HtimeValues)
      as (info2 & -> & Hvalues2 & Hnames2 & Hids2).
    exists info2. split; [done|]. unfold slotLength in *.
    rewrite Hvalues2, Hnames2, Hids2, Hids1, Hi.
    destruct (decide (keyPosition timeEntry = dim)) as [Hd|Hd].
    + subst dim. simpl. rewrite HtimeValues in Hvalues1. simpl in Hvalues1.
      rewrite (bool_decide_true (_ ∨ _)) by auto.
      assert (length (take 1 timeValues) = 1) as ->; [|done].
      rewrite length_take. injection Hvalues1 as ->.
      case_bool_decide; lia.
    + rewrite Hvalues1, Hnames1. split; [done|]. split; [done|].
      f_equal. repeat case_bool_decide; try done; intuition congruence.
  - exists info1. split; [done|]. unfold slotLength in *.
    rewrite Hvalues1, Hnames1, Hids1, Hi. split; [done|]. split; [done|].
    f_equal. repeat case_bool_decide; try done; intuition congruence.
Qed.

(** Every slot of [values] that the decoder returns is a range of value
    indices. *)
Lemma take_range (length0 : nat) :
  take 1 (range length0) = range (length (take 1 (range length0))).
Proof. by destruct length0. Qed.

Lemma removeIndex_ranges index result info :
  (∀ dim pool, js_get (di_values result) dim = Some pool →
               pool = range (length pool)) →
  removeIndex index result = Some info →
  ∀ dim pool, js_get (di_values info) dim = Some pool →
              pool = range (length pool).
Proof.
  intros Hranges. destruct index as [index|]; simpl; [|by intros [= <-]].
  destruct (js_get (di_values result) index) as [values|] eqn:Hvalues;
    simpl; [|done].
  intros [= <-] dim pool. simpl. rewrite js_get_set.
  case_decide; [|by apply Hranges].
  intros [= <-]. rewrite (Hranges _ _ Hvalues). apply take_range.
Qed.

Lemma decoder_values_are_ranges structureSeries
    (special : option SpecialDimensions) info :
  (calculateShownDimensionNamesAndValues structureSeries special).2 = Some info →
  ∀ dim pool, js_get (di_values info) dim = Some pool →
              pool = range (length pool).
Proof.
  unfold calculateShownDimensionNamesAndValues. simpl.
  set (decoded := fold_left decodeStep structureSeries _).
  assert (Hdecoded : ∀ dim pool, js_get (di_values decoded) dim = Some pool →
                                 pool = range (length pool)).
  { intros dim pool. unfold decoded. rewrite decodeFrom_values.
    destruct (lastMatch _ _) as [entry|].
    - intros [= <-]. unfold range. by rewrite length_seq.
    - simpl. rewrite js_get_replicate. case_decide; [|done].
      by intros [= <-]. }
  destruct special as [special|]; [|by intros [= <-]].
  destruct (removeIndex (regionDimensionIndex special) decoded)
    as [held|] eqn:Hheld; simpl; [|done].
  intros Hinfo. eapply removeIndex_ranges; [|done].
  by eapply removeIndex_ranges.
Qed.

End Decoder.

Lemma decoder_lengths_witness :
  ∃ info : DimensionInfo,
    (calculateShownDimensionNamesAndValues birthsAndDeaths
       (Some (calculateSpecialDimensions (@directItem Z) birthsAndDeaths))).2
      = Some info
    ∧ slotLength (di_values info) 2 = slotLength (di_names info) 2
    ∧ slotLength (di_ids info) 2 = Some 2
    ∧ slotLength (di_values info) 2 = Some 2.
Proof.
  apply (decoder_lengths (@directItem Z) birthsAndDeaths 2
           {| keyPosition := 2; dim_id := "MEASURE"; dim_name := "Measure";
              dim_values := [value "BD_2" "Births"; value "BD_4" "Deaths"] |}).
  - reflexivity.
  - simpl. lia.
Defined.

(** C5, the counterexample.  With three regions, the decoder holds
    [values] and [names] of the region dimension to one element and keeps
    its three ids: the three lengths do not agree at keyPosition 0. *)
Lemma region_ids_are_kept :
  ∃ info : DimensionInfo,
    (calculateShownDimensionNamesAndValues birthsAndDeaths
       (Some (calculateSpecialDimensions (@directItem Z) birthsAndDeaths))).2
      = Some info
    ∧ slotLength (di_values info) 0 = Some 1
    ∧ slotLength (di_names info) 0 = Some 1
    ∧ slotLength (di_ids info) 0 = Some 3
    ∧ ¬ lengthsAgree info 0.
Proof.
  eexists. split; [by vm_compute|].
  repeat split; try by vm_compute.
  unfold lengthsAgree. vm_compute. by intros [_ [=]].
Qed.

(** A dimension without values keeps one blank name: the decoder blanks
    the names of every dimension that has not more than one value. *)
Lemma empty_dimension_has_a_name :
  ∃ info : DimensionInfo,
    (calculateShownDimensionNamesAndValues emptyDimension None).2
      = Some info
    ∧ js_get (di_values info) 1 = Some []
    ∧ js_get (di_names info) 1 = Some [""]
    ∧ js_get (di_ids info) 1 = Some [].
Proof. eexists. by vm_compute. Qed.

(** C10, at the failing inputs.  The catalogue [gapCatalogue] has two
    entries, at keyPositions 0 and 2, and [duplicateCatalogue] has two
    entries at keyPosition 0; in both, slot 1 of the two pushed slots stays
    unfilled.  The decoder prints nothing for either.  The unfilled slot of
    [values] and of [names] holds the empty array of the first loop, and
    the write at keyPosition 2 has extended the arrays. *)
Theorem missing_dimension_is_not_reported :
  let gap := calculateShownDimensionNamesAndValues gapCatalogue None in
  let duplicate :=
    calculateShownDimensionNamesAndValues duplicateCatalogue None in
  gap.1 = []
  ∧ di_values <$> gap.2 = Some [Some [0; 1]; Some []; Some [0; 1]]
  ∧ di_names <$> gap.2 = Some [Some ["One"; "Two"]; Some []; Some ["Births"; "Deaths"]]
  ∧ di_ids <$> gap.2 = Some [Some ["R1"; "R2"]; None; Some ["BD_2"; "BD_4"]]
  ∧ duplicate.1 = []
  ∧ di_values <$> duplicate.2 = Some [Some [0; 1]; Some []]
  ∧ di_names <$> duplicate.2 = Some [Some ["Births"; "Deaths"]; Some []]
  ∧ di_ids <$> duplicate.2 = Some [Some ["BD_2"; "BD_4"]].
Proof. by vm_compute. Qed.

(** ** Combination enumerator *)

Lemma length_bind_constant {A B} (f : A → list B) (l : list A) (n : nat) :
  (∀ x, length (f x) = n) → length (l ≫= f) = length l * n.
Proof.
  intros Hf. induction l as [|x l IH]; [done|].
  rewrite bind_cons, length_app, Hf, IH. simpl. lia.
Qed.

Lemma foldr_product (pools : list (list nat)) (n : nat) :
  foldr (λ pool m, length pool * m) n pools
  = foldr (λ pool m, length pool * m) 1 pools * n.
Proof. induction pools as [|pool pools IH]; simpl; [lia|]. rewrite IH. lia. Qed.

Lemma arrayProduct_snoc {A} (pools : list (list A)) (pool : list A) :
  arrayProduct (pools ++ [pool])
  = partialResult ← arrayProduct pools;
    poolMember ← pool; [partialResult ++ [poolMember]].
Proof. unfold arrayProduct. by rewrite fold_left_app. Qed.

(** The number of combinations is the product of the lengths of the
    pools. *)
Lemma arrayProduct_length (pools : list (list nat)) :
  length (arrayProduct pools) = foldr (λ pool n, length pool * n) 1 pools.
Proof.
  induction pools as [|pool pools IH] using rev_ind; [done|].
  rewrite arrayProduct_snoc, foldr_app. simpl.
  rewrite (length_bind_constant _ _ (length pool)).
  - by rewrite IH, (foldr_product pools (_ * 1)), Nat.mul_1_r.
  - intros partialResult.
    rewrite (length_bind_constant _ _ 1); [lia|done].
Qed.

(** Every combination has one index for each pool. *)
Lemma arrayProduct_tuple_length {A} (pools : list (list A)) (tuple : list A) :
  tuple ∈ arrayProduct pools → length tuple = length pools.
Proof.
  revert tuple. induction pools as [|pool pools IH] using rev_ind;
    intros tuple.
  - by intros ->%list_elem_of_singleton.
  - rewrite arrayProduct_snoc.
    intros (partialResult & (poolMember & ->%list_elem_of_singleton & _)
              %list_elem_of_bind & Hpartial)%list_elem_of_bind.
    rewrite !length_app, (IH _ Hpartial). done.
Qed.

(** *** The order of the enumeration *)

Lemma lexLt_snoc_same (tuple : list nat) (x y : nat) :
  x < y → lexLt (tuple ++ [x]) (tuple ++ [y]) = true.
Proof.
  intros Hxy. induction tuple as [|z tuple IH]; simpl.
  - apply orb_true_intro. left. by apply Nat.ltb_lt.
  - by rewrite Nat.eqb_refl, IH, orb_true_r.
Qed.

Lemma lexLt_app (tuple tuple' rest rest' : list nat) :
  length tuple = length tuple' →
  lexLt tuple tuple' = true → lexLt (tuple ++ rest) (tuple' ++ rest') = true.
Proof.
  revert tuple'. induction tuple as [|x tuple IH]; intros [|y tuple'];
    simpl; try done.
  intros [= Hlength] [Hlt|[Heq Hrest]%andb_prop]%orb_prop.
  - by rewrite Hlt.
  - rewrite Heq, (IH _ Hlength Hrest). apply orb_true_r.
Qed.

(** Sorted blocks in the order of their sorted origins are sorted. *)
Lemma StronglySorted_bind {A B} (R : relation A) (S : relation B)
    (f : A → list B) (l : list A) :
  StronglySorted R l →
  (∀ x, x ∈ l → StronglySorted S (f x)) →
  (∀ x x' b b', x ∈ l → x' ∈ l → R x x' → b ∈ f x → b' ∈ f x' → S b b') →
  StronglySorted S (l ≫= f).
Proof.
  induction 1 as [|x l Hsorted IH Hbelow]; intros Hblocks Hacross.
  - constructor.
  - rewrite bind_cons. apply StronglySorted_app. split; [|split].
    + intros b Hb b' (x' & Hb' & Hx')%list_elem_of_bind.
      apply (Hacross x x'); [by left|by right| |done..].
      by eapply Forall_forall in Hbelow.
    + apply Hblocks. by left.
    + apply IH.
      * intros x' Hx'. apply Hblocks. by right.
      * intros x1 x2 b b' Hx1 Hx2. apply Hacross; by right.
Qed.

Lemma range_increasing (length : nat) : StronglySorted lt (range length).
Proof.
  unfold range. generalize 0 as start.
  induction length as [|length IH]; intros start; simpl; constructor.
  - apply IH.
  - apply Forall_forall. intros index [? _]%elem_of_seq. lia.
Qed.

(** The product of increasing pools comes in lexicographic order, the
    first pool varying slowest. *)
Lemma arrayProduct_lexicographic (pools : list (list nat)) :
  Forall (StronglySorted lt) pools → lexicographic (arrayProduct pools).
Proof.
  unfold lexicographic.
  induction pools as [|pool pools IH] using rev_ind; intros Hpools.
  - repeat constructor.
  - apply Forall_app in Hpools as [Hpools [Hpool _]%Forall_cons].
    rewrite arrayProduct_snoc.
    apply (StronglySorted_bind (λ a b, lexLt a b = true)); [by apply IH|..].
    + intros partialResult _.
      apply (StronglySorted_bind lt); [done|repeat constructor|].
      intros x y ? ? _ _ Hxy ->%list_elem_of_singleton ->%list_elem_of_singleton.
      by apply lexLt_snoc_same.
    + intros partialResult partialResult' tuple tuple' Hin Hin' Hbelow
        (x & ->%list_elem_of_singleton & _)%list_elem_of_bind
        (y & ->%list_elem_of_singleton & _)%list_elem_of_bind.
      apply lexLt_app; [|done].
      by rewrite (arrayProduct_tuple_length _ _ Hin),
                 (arrayProduct_tuple_length _ _ Hin').
Qed.

Section Enumerator.

Context {Num : Type}.
Implicit Types (item : @Item Num).




(** What a filter keeps is in the array. *)
Lemma js_filter_from_elem {A} (cb : A → nat → option bool)
    (a : list (option A)) i kept x :
  js_filter_from cb i a = Some kept → x ∈ kept → ∃ dim, js_get a dim = Some x.
Proof.
  revert i kept. induction a as [|[y|] a IH]; intros i kept; simpl.
  - by intros [= <-] ?%elem_of_nil.
  - destruct (cb y i) as [keep|]; simpl; [|done].
    destruct (js_filter_from cb (S i) a) as [rest|] eqn:Hrest; simpl; [|done].
    intros [= <-] Hx.
    assert (x = y ∨ x ∈ rest) as [->|Hin].
    { destruct keep; [by apply elem_of_cons|by right]. }
    + by exists 0.
    + destruct (IH _ _ Hrest Hin) as [dim Hdim]. by exists (S dim).
  - intros Hkept Hx. destruct (IH _ _ Hkept Hx) as [dim Hdim].
    by exists (S dim).
Qed.

(** On the dimension info of the decoder, whatever the lengths of the
    dimensions, the enumerator lists the combinations in lexicographic
    order, as many as the product of the lengths of the value arrays that
    it keeps. *)
Lemma calculateShownDimensionCombinations_order item structureSeries
    (special : option SpecialDimensions) combinations :
  _dimensionInfo item
    = (calculateShownDimensionNamesAndValues structureSeries special).2 →
  calculateShownDimensionCombinations item = Some combinations →
  lexicographic (sdc_values combinations)
  ∧ ∃ values,
      (_dimensionInfo item
         ≫= λ info, js_filter (getNonTimeDimensionFilter item) (di_values info))
        = Some values
      ∧ length (sdc_values combinations)
        = foldr (λ pool n, length pool * n) 1 values.
Proof.
  intros Hdecoded. unfold calculateShownDimensionCombinations.
  destruct (_dimensionInfo item) as [info|] eqn:Hinfo; simpl; [|done].
  destruct (js_filter _ (di_values info)) as [values|] eqn:Hvalues;
    simpl; [|done].
  destruct (js_filter _ (di_names info)) as [names|]; simpl; [|done].
  intros [= <-]. simpl. split.
  - apply arrayProduct_lexicographic, Forall_forall. intros pool Hpool.
    destruct (js_filter_from_elem _ _ _ _ _ Hvalues Hpool) as [dim Hdim].
    rewrite (decoder_values_are_ranges structureSeries special info
               (eq_sym Hdecoded) dim pool Hdim).
    apply range_increasing.
  - exists values. split; [done|]. apply arrayProduct_length.
Qed.

End Enumerator.



(** The time-period dimension is held to one index in the dimension info
    and has no place in the combinations: the keys of the observation map
    of a data document have no time index. *)
Lemma time_period_is_left_out :
  ∃ item : @Item Z,
    (loadDataflow_then dataflowItem timeLastDataflow).2 = Some item
    ∧ di_values <$> _dimensionInfo item
      = Some [Some [0]; Some [0; 1; 2]; Some [0; 1]; Some [0]]
    ∧ sdc_values <$> calculateShownDimensionCombinations item
      = Some [[0; 0; 0]; [0; 0; 1]; [0; 1; 0];
              [0; 1; 1]; [0; 2; 0]; [0; 2; 1]]
    ∧ _combinations item = Some [[0; 0]; [0; 1]; [1; 0]; [1; 1]; [2; 0]; [2; 1]].
Proof. eexists. split; [by vm_compute|]. by vm_compute. Qed.

(** ** Value columns *)

Section ValueColumns.

Context {Num : Type}.
Implicit Types (series : gmap string (@SeriesEntry Num)).
Implicit Types (special : SpecialDimensions) (structureSeries : list Dimension).

(** A key that is absent from the observation map gives [null]. *)
Lemma observationValue_absent series key :
  series !! key = None → observationValue series key = Some CNull.
Proof. intros Habsent. unfold observationValue. by rewrite Habsent. Qed.

(** The loop over the regions reads, for region [r], the key of the
    combination with [r] at the region slot: the slot written on an earlier
    turn is written over. *)
Lemma regionLoop_values series regionSlot regionIndices dimensionIndices values :
  snd <$> regionLoop series regionSlot regionIndices dimensionIndices values
  = (values ++.) <$>
      mapM (λ regionIndex,
              observationValue series
                (joinIndices ":" (js_set regionSlot regionIndex dimensionIndices)))
        regionIndices.
Proof.
  revert dimensionIndices values.
  induction regionIndices as [|regionIndex rest IH];
    intros dimensionIndices values; simpl.
  - by rewrite app_nil_r.
  - destruct (observationValue series _) as [value|]; simpl; [|done].
    rewrite IH.
    rewrite (mapM_ext _
               (λ regionIndex0,
                  observationValue series
                    (joinIndices ":"
                       (js_set regionSlot regionIndex0 dimensionIndices)))).
    + destruct (mapM _ rest) as [more|]; simpl; [|done].
      by rewrite <- app_assoc.
    + intros regionIndex0. by rewrite js_set_set.
Qed.

(** What one turn of the loop over the combinations produces. *)
Lemma buildValueColumn_values uniqueValue structureSeries series special
    regionSlot regionDimension dimensionIndices names column :
  regionDimensionIndex special = Some regionSlot →
  structureSeries !! regionSlot = Some regionDimension →
  buildValueColumn uniqueValue structureSeries series special dimensionIndices
    names = Some column →
  mapM (λ regionIndex,
          observationValue series
            (joinIndices ":"
               (js_set regionSlot regionIndex (Some <$> dimensionIndices))))
    (range (length (dim_values regionDimension)))
  = Some (col_values column).
Proof.
  intros Hslot Hregion. unfold buildValueColumn.
  destruct names as [names|]; simpl; [|done].
  rewrite Hslot. simpl. rewrite Hregion. simpl.
  pose proof (regionLoop_values series regionSlot
                (range (length (dim_values regionDimension)))
                (Some <$> dimensionIndices) []) as Hloop.
  destruct (regionLoop _ _ _ _ _) as [written|]; simpl in *; [|done].
  destruct (mapM _ _) as [values|]; simpl in *; [|done].
  injection Hloop as Hwritten. intros [= <-].
  by destruct uniqueValue; simpl; rewrite Hwritten.
Qed.

(** One turn of the loop does not raise when the names of the combination
    are there and every present entry has an observation at time 0. *)
Lemma buildValueColumn_is_Some uniqueValue structureSeries series special
    regionSlot regionDimension dimensionIndices names :
  regionDimensionIndex special = Some regionSlot →
  structureSeries !! regionSlot = Some regionDimension →
  (∀ key entry, series !! key = Some entry → is_Some (observations entry !! 0)) →
  is_Some (buildValueColumn uniqueValue structureSeries series special
             dimensionIndices (Some names)).
Proof.
  intros Hslot Hregion Hseries. unfold buildValueColumn. simpl.
  rewrite Hslot. simpl. rewrite Hregion. simpl.
  pose proof (regionLoop_values series regionSlot
                (range (length (dim_values regionDimension)))
                (Some <$> dimensionIndices) []) as Hloop.
  destruct (mapM_is_Some_2
              (λ regionIndex,
                 observationValue series
                   (joinIndices ":"
                      (js_set regionSlot regionIndex (Some <$> dimensionIndices))))
              (range (length (dim_values regionDimension))))
    as [values Hvalues].
  { apply Forall_forall. intros regionIndex _. simpl.
    unfold observationValue.
    destruct (series !! _) as [entry|] eqn:Hentry; [|by eexists].
    destruct (Hseries _ _ Hentry) as [first ->]. by eexists. }
  rewrite Hvalues in Hloop.
  destruct (regionLoop _ _ _ _ _) as [written|]; simpl in *; [|done].
  by eexists.
Qed.

Lemma valueColumnsLoop_columns uniqueValue structureSeries series special
    values names columns :
  valueColumnsLoop uniqueValue structureSeries series special values names
    = Some columns →
  length columns = length values
  ∧ ∀ combinationIndex dimensionIndices column,
      values !! combinationIndex = Some dimensionIndices →
      columns !! combinationIndex = Some column →
      buildValueColumn uniqueValue structureSeries series special
        dimensionIndices (names !! combinationIndex) = Some column.
Proof.
  revert names columns.
  induction values as [|dimensionIndices0 values IH]; intros names columns;
    simpl.
  - intros [= <-]. split; [done|]. by intros [|?] ???.
  - destruct (buildValueColumn _ _ _ _ _ _) as [column0|] eqn:Hcolumn0;
      simpl; [|done].
    destruct (valueColumnsLoop _ _ _ _ _ _) as [rest|] eqn:Hrest;
      simpl; [|done].
    intros [= <-]. destruct (IH _ _ Hrest) as [Hlength Hturn].
    split; [simpl; by rewrite Hlength|].
    intros [|combinationIndex] dimensionIndices column; simpl.
    + intros [= <-] [= <-]. by rewrite <- head_lookup.
    + intros Hvalue Hcolumn. rewrite <- lookup_tail. by apply Hturn.
Qed.

Lemma valueColumnsLoop_is_Some uniqueValue structureSeries series special
    regionSlot regionDimension values names :
  regionDimensionIndex special = Some regionSlot →
  structureSeries !! regionSlot = Some regionDimension →
  (∀ key entry, series !! key = Some entry → is_Some (observations entry !! 0)) →
  length values ≤ length names →
  is_Some (valueColumnsLoop uniqueValue structureSeries series special values
             names).
Proof.
  intros Hslot Hregion Hseries. revert names.
  induction values as [|dimensionIndices values IH]; intros names Hnames;
    [by eexists|].
  destruct names as [|names0 names]; [simpl in Hnames; lia|].
  cbn [valueColumnsLoop head tail].
  destruct (buildValueColumn_is_Some uniqueValue structureSeries series
              special regionSlot regionDimension dimensionIndices names0
              Hslot Hregion Hseries) as [column ->].
  destruct (IH names) as [rest ->]; [simpl in Hnames; lia|]. by eexists.
Qed.

(** Let [regionSlot] be the recorded index of the region dimension, let the
    catalogue array hold an entry at that index, and let [regionCount] be
    the number of values of that entry.  Whenever [buildValueColumns]
    returns, it returns one column per combination, the value list of
    every column has exactly [regionCount] elements, and for every [r]
    below [regionCount], when the key that joins with colons the
    combination with [r] written at index [regionSlot] is absent from the
    observation map, the cell at row [r] is [null].  No lookup of an absent
    key raises: [buildValueColumns] returns whenever every combination has
    its names and every entry that is present in the map has an
    observation at time index 0, and so whenever the map is empty. *)
Lemma buildValueColumns_written_slot shownDimensionCombinations
    structureSeries series special regionSlot regionDimension :
  regionDimensionIndex special = Some regionSlot →
  structureSeries !! regionSlot = Some regionDimension →
  let regionCount := length (dim_values regionDimension) in
  (∀ columns,
     buildValueColumns shownDimensionCombinations structureSeries series
       special = Some columns →
     length columns = length (sdc_values shownDimensionCombinations)
     ∧ ∀ combinationIndex dimensionIndices column,
         sdc_values shownDimensionCombinations !! combinationIndex
           = Some dimensionIndices →
         columns !! combinationIndex = Some column →
         length (col_values column) = regionCount
         ∧ ∀ regionIndex,
             regionIndex < regionCount →
             series !! joinIndices ":"
                         (js_set regionSlot regionIndex
                            (Some <$> dimensionIndices)) = None →
             col_values column !! regionIndex = Some CNull)
  ∧ (length (sdc_values shownDimensionCombinations)
       ≤ length (sdc_names shownDimensionCombinations) →
     (∀ key entry,
        series !! key = Some entry → is_Some (observations entry !! 0)) →
     is_Some (buildValueColumns shownDimensionCombinations structureSeries
                series special)).
Proof.
  intros Hslot Hregion regionCount. split.
  - intros columns Hcolumns. unfold buildValueColumns in Hcolumns.
    apply valueColumnsLoop_columns in Hcolumns as [Hlength Hturn].
    split; [done|].
    intros combinationIndex dimensionIndices column Hvalue Hcolumn.
    pose proof (Hturn _ _ _ Hvalue Hcolumn) as Hbuilt.
    apply (buildValueColumn_values _ _ _ _ _ _ _ _ _ Hslot Hregion) in Hbuilt.
    apply mapM_Some in Hbuilt.
    pose proof (Forall2_length _ _ _ Hbuilt) as Hsame.
    unfold range in Hsame. rewrite length_seq in Hsame.
    split; [done|].
    intros regionIndex Hbelow Habsent.
    destruct (Forall2_lookup_l _ _ _ regionIndex regionIndex Hbuilt)
      as (cell & Hcell & Hobserved).
    { unfold range. by rewrite lookup_seq_lt. }
    rewrite observationValue_absent in Hobserved by done.
    by injection Hobserved as <-.
  - intros Hnames Hseries. unfold buildValueColumns.
    by eapply valueColumnsLoop_is_Some.
Qed.

(** Where the index that the code writes is the region slot of the
    combination, as when no time-period dimension is recorded before the
    region dimension, a cell whose key in the words of the specification
    is absent from the observation map is [null]. *)
Lemma buildValueColumns_lookup_miss_at_region_slot shownDimensionCombinations
    structureSeries series special regionSlot regionDimension columns
    combinationIndex dimensionIndices column regionIndex key :
  regionDimensionIndex special = Some regionSlot →
  regionSlotOfSpec special = Some regionSlot →
  structureSeries !! regionSlot = Some regionDimension →
  buildValueColumns shownDimensionCombinations structureSeries series special
    = Some columns →
  sdc_values shownDimensionCombinations !! combinationIndex
    = Some dimensionIndices →
  regionSlot < length dimensionIndices →
  columns !! combinationIndex = Some column →
  regionIndex < length (dim_values regionDimension) →
  keyOfSpec special dimensionIndices regionIndex = Some key →
  series !! key = None →
  col_values column !! regionIndex = Some CNull.
Proof.
  intros Hslot Hspec Hregion Hcolumns Hvalue Hin Hcolumn Hbelow Hkey Habsent.
  destruct (proj1 (buildValueColumns_written_slot shownDimensionCombinations
                     structureSeries series special regionSlot regionDimension
                     Hslot Hregion) columns Hcolumns) as [_ Hcells].
  destruct (Hcells _ _ _ Hvalue Hcolumn) as [_ Hnull].
  apply Hnull; [done|].
  unfold keyOfSpec in Hkey. rewrite Hspec in Hkey. simpl in Hkey.
  injection Hkey as <-.
  unfold js_set. rewrite length_fmap, decide_True by done.
  by rewrite <- list_fmap_insert.
Qed.

(** The region column has one row for each value of the entry at the
    region slot: the value columns have as many rows as the region
    column. *)
Lemma buildRegionColumn_rows (toLowerCase : string → string)
    (item : @Item Num) structureSeries special
    regionSlot regionDimension regionColumn :
  _specialDimensions item = Some special →
  regionDimensionIndex special = Some regionSlot →
  structureSeries !! regionSlot = Some regionDimension →
  buildRegionColumn toLowerCase item structureSeries = Some regionColumn →
  ∃ column,
    regionColumn = Some column
    ∧ col_values column
      = (λ value, CString (val_id value)) <$> dim_values regionDimension
    ∧ length (col_values column) = length (dim_values regionDimension).
Proof.
  intros Hspecial Hslot Hregion. unfold buildRegionColumn.
  rewrite Hspecial. simpl. rewrite Hslot, Hregion. simpl.
  destruct (getRegionTypeId item structureSeries) as [[regionTypeId|]|];
    simpl; [|done..].
  intros [= <-]. eexists. split; [done|]. simpl.
  split; [done|]. by rewrite length_fmap.
Qed.

End ValueColumns.

(** C3, at the failing inputs.  In the first catalogue the time-period
    dimension is at keyPosition 0, the region dimension at 1 and the
    measures at 2.  The combinations that the enumerator returns have two
    indices, that of the region and that of the measure, and
    [buildValueColumns] writes the region index at index 1, the keyPosition
    of the region dimension: over the index of the measure.  For the
    combination of [Births] and the second region the key with the region
    index at the region slot is [1:0], which is absent from the observation
    map; the cell is 7, read at the key [0:1], which is also the cell of
    [Deaths].  In the second catalogue the entry of the three measures
    stands before the entry of the two regions in the array: the region
    count is read from the entry at the array index 0, and every value
    column has three cells for two regions. *)
Theorem buildValueColumns_region_slot :
  (∃ special info shownDimensionCombinations,
     calculateSpecialDimensions (@directItem Z) timeRegionMeasure = special
     ∧ regionDimensionIndex special = Some 1
     ∧ timePeriodDimensionIndex special = Some 0
     ∧ (calculateShownDimensionNamesAndValues timeRegionMeasure
          (Some special)).2 = Some info
     ∧ calculateShownDimensionCombinations
         (set_dimensionInfo (set_specialDimensions (@directItem Z) special) info)
       = Some shownDimensionCombinations
     ∧ sdc_values shownDimensionCombinations = [[0; 0]; [0; 1]]
     ∧ sdc_names shownDimensionCombinations = [[""; "Births"]; [""; "Deaths"]]
     ∧ regionCountOfSpec (@directItem Z) timeRegionMeasure = Some 2
     ∧ keyOfSpec special [0; 0] 1 = Some "1:0"
     ∧ timeRegionMeasureSeries !! "1:0" = None
     ∧ buildValueColumns shownDimensionCombinations timeRegionMeasure
         timeRegionMeasureSeries special
       = Some [TableColumn "Births" [CNull; CNumber 7%Z];
               TableColumn "Deaths" [CNull; CNumber 7%Z]])
  ∧ (∃ special info shownDimensionCombinations,
       calculateSpecialDimensions (@directItem Z) measuresBeforeRegions
         = special
       ∧ regionDimensionIndex special = Some 0
       ∧ timePeriodDimensionIndex special = None
       ∧ (calculateShownDimensionNamesAndValues measuresBeforeRegions
            (Some special)).2 = Some info
       ∧ calculateShownDimensionCombinations
           (set_dimensionInfo (set_specialDimensions (@directItem Z) special) info)
         = Some shownDimensionCombinations
       ∧ sdc_values shownDimensionCombinations = [[0; 0]; [0; 1]; [0; 2]]
       ∧ regionCountOfSpec (@directItem Z) measuresBeforeRegions = Some 2
       ∧ buildValueColumns shownDimensionCombinations measuresBeforeRegions
           (∅ : gmap string (@SeriesEntry Z)) special
         = Some [TableColumn "Births" [CNull; CNull; CNull];
                 TableColumn "Deaths" [CNull; CNull; CNull];
                 TableColumn "Marriages" [CNull; CNull; CNull]]).
Proof.
  split.
  - eexists _, _, _. split; [done|]. split; [by vm_compute|].
    split; [by vm_compute|]. split; [by vm_compute|].
    split; [by vm_compute|]. by vm_compute.
  - eexists _, _, _. split; [done|]. split; [by vm_compute|].
    split; [by vm_compute|]. split; [by vm_compute|].
    split; [by vm_compute|]. by vm_compute.
Qed.

(** The table of the scenario of the specification: the key [0:0:0] alone
    is in the observation map, and every other cell is [null]. *)
Lemma births_and_deaths_columns :
  buildValueColumns
    {| sdc_values := [[0; 0; 0]; [0; 0; 1]];
       sdc_names := [[""; ""; "Births"]; [""; ""; "Deaths"]] |}
    birthsAndDeaths (dataSets0_series birthsAndDeathsJson)
    {| regionDimensionIndex := Some 0; regionTypeDimensionIndex := Some 1;
       regionTypeCount := 1; timePeriodDimensionIndex := None |}
  = Some [TableColumn "Births" [CNumber 10%Z; CNull; CNull];
          TableColumn "Deaths" [CNull; CNull; CNull]].
Proof. by vm_compute. Qed.

(** ** Total column *)

Section TotalColumn.

Context {Num : Type}.
Variable sumValues : list (@Column Num) → option (list (@Cell Num)).
Implicit Types (item : @Item Num).

(** Without a concept there is no total column. *)
Lemma buildTotalColumns_without_concepts item :
  _concepts item = [] → buildTotalColumns sumValues item = Some [].
Proof. intros Hnone. unfold buildTotalColumns. by rewrite Hnone. Qed.

(** With a concept [sumValues] is called on the included columns,
    whatever the active combinations are.  When the call returns there is
    one total column: it is named [Total selected], it is active, and its
    values are what the call returned.  When the call raises,
    [buildTotalColumns] raises. *)
Lemma buildTotalColumns_with_concepts item combinations :
  _concepts item ≠ [] →
  _combinations item = Some combinations →
  buildTotalColumns sumValues item
  = (λ summed, [ {| col_name := "Total selected"; col_values := summed;
                    col_isActive := true |} ])
    <$> sumValues (includedColumns item combinations).
Proof.
  intros Hsome Hcombinations. unfold buildTotalColumns.
  rewrite decide_False.
  - rewrite Hcombinations. simpl.
    by destruct (sumValues (includedColumns item combinations)).
  - unfold calculateActiveConceptValues. rewrite length_fmap.
    by destruct (_concepts item).
Qed.

(** A filter whose callback refuses every element keeps nothing. *)
Lemma filterWithIndex_from_none {A} (cb : A → nat → bool) (a : list A) i :
  (∀ x j, cb x j = false) → filterWithIndex_from cb i a = [].
Proof.
  intros Hnone. revert i. induction a as [|x a IH]; intros i; simpl; [done|].
  by rewrite Hnone.
Qed.

(** Without an active combination no column is included. *)
Lemma includedColumns_without_active_combination item combinations :
  arrayProduct (calculateActiveConceptValues (_concepts item)) = [] →
  includedColumns item combinations = [].
Proof.
  intros Hnone. unfold includedColumns, filterWithIndex. rewrite Hnone.
  by apply filterWithIndex_from_none.
Qed.

(** In the metadata-only topology a change of the active items requests
    the url of the item, and no other. *)
Lemma changedActiveItems_requests_item_url item dataflowUrl requested :
  _dataflowUrl item = Some dataflowUrl →
  LoadJson requested ∈ (changedActiveItems sumValues item).1 →
  requested = url item.
Proof.
  intros Hdataflow. unfold changedActiveItems. rewrite Hdataflow.
  destruct (calculateDimensionRequestString item) as [filterExpression|];
    simpl.
  - unfold loadAndBuildTable. simpl.
    intros [[=]|[[=]|[[=]|[]%elem_of_nil]%elem_of_cons]%elem_of_cons]
             %elem_of_cons.
    done.
  - by intros [[=]|[]%elem_of_nil]%elem_of_cons.
Qed.

End TotalColumn.

(** C7.  Take an item with at least one concept and with an empty list of
    active combinations, as when every child of some concept is toggled
    off.  No column is included, and [buildTotalColumns] does not return
    the empty list: it calls [TableColumn.sumValues] on no column.  When
    that call raises, [buildTotalColumns] raises; when it returns,
    [buildTotalColumns] returns a column [Total selected], active, with
    the values that the call returned. *)
Theorem total_column_without_active_combination {Num}
    (sumValues : list (@Column Num) → option (list (@Cell Num)))
    (item : @Item Num) combinations :
  _concepts item ≠ [] →
  _combinations item = Some combinations →
  arrayProduct (calculateActiveConceptValues (_concepts item)) = [] →
  includedColumns item combinations = []
  ∧ buildTotalColumns sumValues item
    = (λ summed, [ {| col_name := "Total selected"; col_values := summed;
                      col_isActive := true |} ])
      <$> sumValues []
  ∧ buildTotalColumns sumValues item ≠ Some [].
Proof.
  intros Hconcepts Hcombinations Hnone.
  pose proof (includedColumns_without_active_combination item combinations
                Hnone) as Hincluded.
  pose proof (buildTotalColumns_with_concepts sumValues item combinations
                Hconcepts Hcombinations) as Htotal.
  rewrite Hincluded in Htotal. rewrite Htotal.
  split; [done|]. split; [done|].
  by destruct (sumValues []).
Qed.

Lemma total_column_without_active_combination_witness :
  includedColumns noMeasureSelected [[0]; [1]] = []
  ∧ buildTotalColumns (sumValuesBy addCells None) noMeasureSelected = None
  ∧ buildTotalColumns (sumValuesBy addCells None) noMeasureSelected ≠ Some [].
Proof.
  apply (total_column_without_active_combination (sumValuesBy addCells None)
           noMeasureSelected [[0]; [1]]).
  - vm_compute. discriminate.
  - vm_compute. reflexivity.
  - vm_compute. reflexivity.
Defined.

(** The table of three regions and two measures with both measures toggled
    off.  With a [sumValues] that raises on no column,
    [changedActiveItems] raises before it updates the table; with a
    [sumValues] that returns, [buildTotalColumns] returns a total
    column. *)
Lemma change_without_active_combination :
  (loadAndBuildTable_then lowerCaseAscii (sumValuesBy addCells None)
     directItem birthsAndDeathsJson).2 = Some birthsAndDeathsItem
  ∧ col_name <$> columns noMeasureSelected
    = ["lga_code"; "Births"; "Deaths"; "Total selected"]
  ∧ calculateActiveConceptValues (_concepts noMeasureSelected) = [[]]
  ∧ arrayProduct (calculateActiveConceptValues (_concepts noMeasureSelected))
    = []
  ∧ changedActiveItems (sumValuesBy addCells None) noMeasureSelected
    = ([ConsoleLog ["changedActiveItems"]], None)
  ∧ buildTotalColumns (sumValuesBy addCells (Some [])) noMeasureSelected
    = Some [ {| col_name := "Total selected"; col_values := [];
                col_isActive := true |} ].
Proof. split; [by vm_compute|]. by vm_compute. Qed.

(** C8, at the failing input.  The item has a dataflow url, and
    [loadDataflow] has decoded two measures, one frequency and two regions.
    The child [Deaths] is toggled off.  [changedActiveItems] computes the
    url extended with the filter expression, prints it, and then requests
    the url of the item itself. *)
Theorem change_requests_the_unfiltered_url
    (sumValues : list (@Column Z) → option (list (@Cell Z))) :
  ∃ item,
    (loadDataflow_then dataflowItem measuresDataflow).2 = Some item
    ∧ let toggled := toggle 0 1 item in
      calculateDimensionRequestString toggled = Some "BD_2.A."
      ∧ requestUrlOfSpec toggled
        = Some "http://stat.abs.gov.au/sdmx-json/data/ABS_REGIONAL_LGA/BD_2.A./all"
      ∧ changedActiveItems sumValues toggled
        = ([ConsoleLog ["changedActiveItems"];
            ConsoleLog
              ["Would download";
               "http://stat.abs.gov.au/sdmx-json/data/ABS_REGIONAL_LGA/BD_2.A./all"];
            LoadJson "http://stat.abs.gov.au/sdmx-json/data/ABS_REGIONAL_LGA"],
           Some toggled).
Proof. eexists. split; [by vm_compute|]. by vm_compute. Qed.

(** C9, at the failing input.  In the dataflow the time-period dimension is
    at keyPosition 0, the region dimension at 1 and the measures at 2.
    Both measures are active.  The specification gives the empty token for
    the region dimension and the two measure ids; the code gives the ids of
    the first two regions for the region dimension and the empty token for
    the measures. *)
Theorem request_string_with_time_first :
  ∃ item : @Item Z,
    (loadDataflow_then dataflowItem timeFirstDataflow).2 = Some item
    ∧ regionDimensionIndex <$> _specialDimensions item = Some (Some 1)
    ∧ timePeriodDimensionIndex <$> _specialDimensions item = Some (Some 0)
    ∧ calculateActiveConceptValues (_concepts item) = [[0; 1]]
    ∧ requestStringOfSpec item = Some ".BD_2+BD_4"
    ∧ calculateDimensionRequestString item = Some "R1+R2.".
Proof. eexists. split; [by vm_compute|]. by vm_compute. Qed.

(** The example of the specification: a dimension with the ids [BD_2] and
    [BD_4], both active, and a dimension with the one id [A]. *)
Lemma request_string_example :
  calculateDimensionRequestString (Num := Z)
    {| url := "http://stat.abs.gov.au/sdmx-json/data/ABS_REGIONAL_LGA";
       _dataflowUrl :=
         Some "http://stat.abs.gov.au/sdmx-json/dataflow/ABS_REGIONAL_LGA";
       dataUrlComponent := "data"; dataflowUrlComponent := "dataflow";
       regionTypeDimensionId := "REGIONTYPE"; regionDimensionId := "REGION";
       frequencyDimensionId := "FREQUENCY";
       timePeriodDimensionId := "TIME_PERIOD";
       regionType := None;
       _specialDimensions := Some noSpecialDimensions;
       _dimensionInfo :=
         (calculateShownDimensionNamesAndValues measuresOnly
            (Some noSpecialDimensions)).2;
       _combinations := Some [[0]; [1]];
       _concepts :=
         [ {| concept_name := Some "Measure";
              items := [ {| vc_name := "Births"; vc_isActive := true |};
                         {| vc_name := "Deaths"; vc_isActive := true |} ] |} ];
       columns := [] |}
  = Some "BD_2+BD_4.A".
Proof. by vm_compute. Qed.

(** With the region dimension last, as in the dataflow of two measures, one
    frequency and two regions, the code and the specification agree; the
    empty token of the region dimension ends the string. *)
Lemma request_string_with_region_last :
  ∃ item : @Item Z,
    (loadDataflow_then dataflowItem measuresDataflow).2 = Some item
    ∧ calculateDimensionRequestString item = Some "BD_2+BD_4.A."
    ∧ requestStringOfSpec item = Some "BD_2+BD_4.A.".
Proof. eexists. split; [by vm_compute|]. by vm_compute. Qed.

(** ** The positions that [indexOf] finds *)

Section IndexOf.

Context {A : Type} `{EqDecision A}.
Implicit Types (l : list A) (x : A).

Lemma js_indexOf_from_dense l x z :
  js_indexOf_from (λ y, bool_decide (y = x)) (Some <$> l) z
  = from_option (λ found, (z + Z.of_nat found.1)%Z) (-1)%Z
      (list_find (λ y, y = x) l).
Proof.
  revert z. induction l as [|y l IH]; intros z; [done|].
  cbn [fmap list_fmap js_indexOf_from list_find].
  case_bool_decide as Hy.
  - rewrite decide_True by done. simpl. lia.
  - rewrite decide_False by done. rewrite IH.
    destruct (list_find _ l) as [[i y']|]; simpl; [lia|done].
Qed.

Lemma indexOf_list_find l x :
  indexOf l x
  = from_option (λ found, Z.of_nat found.1) (-1)%Z (list_find (λ y, y = x) l).
Proof.
  unfold indexOf, js_indexOf. rewrite js_indexOf_from_dense.
  by destruct (list_find _ l).
Qed.

(** [indexOf] answers a position exactly for the elements of the array. *)
Lemma indexOf_nonnegative l x : (0 ≤ indexOf l x)%Z ↔ x ∈ l.
Proof.
  rewrite indexOf_list_find.
  destruct (list_find _ l) as [[i y]|] eqn:Hfind; simpl.
  - apply list_find_Some in Hfind as (Hi & -> & _).
    split; [|lia]. intros _. by eapply list_elem_of_lookup_2.
  - apply list_find_None in Hfind. split; [lia|].
    intros Hin. by eapply Forall_forall in Hfind.
Qed.

Lemma indexOf_lookup l x i : indexOf l x = Z.of_nat i → l !! i = Some x.
Proof.
  rewrite indexOf_list_find.
  destruct (list_find _ l) as [[j y]|] eqn:Hfind; simpl; [|lia].
  apply list_find_Some in Hfind as (Hj & -> & _).
  intros ?%Nat2Z.inj. by subst.
Qed.

(** In an array without repetition [indexOf] answers the position of the
    element. *)
Lemma indexOf_NoDup l x i :
  NoDup l → l !! i = Some x → indexOf l x = Z.of_nat i.
Proof.
  intros Hnodup Hi. rewrite indexOf_list_find.
  destruct (list_find _ l) as [[j y]|] eqn:Hfind; simpl.
  - apply list_find_Some in Hfind as (Hj & -> & _).
    f_equal. by eapply NoDup_lookup.
  - apply list_find_None in Hfind.
    apply list_elem_of_lookup_2 in Hi. by eapply Forall_forall in Hfind.
Qed.

End IndexOf.

Lemma filterWithIndex_from_ext {A} (cb cb' : A → nat → bool) (a : list A) i :
  (∀ j x, a !! j = Some x → cb x (i + j) = cb' x (i + j)) →
  filterWithIndex_from cb i a = filterWithIndex_from cb' i a.
Proof.
  revert i. induction a as [|x a IH]; intros i Hsame; [done|]. simpl.
  rewrite (IH (S i)).
  - specialize (Hsame 0 x eq_refl). rewrite Nat.add_0_r in Hsame.
    by rewrite Hsame.
  - intros j y Hj. replace (S i + j) with (i + S j) by lia. by apply Hsame.
Qed.

Section IncludedColumns.

Context {Num : Type}.
Implicit Types (item : @Item Num) (combinations : list (list nat)).

(** When no two entries of [item._combinations] have the same joined form,
    the columns that go into the total are exactly the value columns whose
    entry, joined, equals the joined form of some active combination. *)
Lemma includedColumns_without_repetition item combinations :
  NoDup ((λ combination, joinIndices "," (Some <$> combination))
         <$> combinations) →
  includedColumns item combinations
  = columnsOfActiveCombinations item combinations.
Proof.
  intros Hnodup. unfold includedColumns, columnsOfActiveCombinations.
  unfold filterWithIndex. apply filterWithIndex_from_ext.
  intros j column Hcolumn. simpl.
  set (stringified := (λ combination, joinIndices "," (Some <$> combination))
                      <$> combinations) in *.
  set (active := arrayProduct (calculateActiveConceptValues (_concepts item))).
  assert (Hj : j < length combinations).
  { apply lookup_lt_Some in Hcolumn. unfold sliceArray in Hcolumn.
    rewrite length_take in Hcolumn. lia. }
  destruct (lookup_lt_is_Some_2 combinations j Hj) as [combination Hcombination].
  rewrite Hcombination.
  assert (Hstring : stringified !! j
                    = Some (joinIndices "," (Some <$> combination))).
  { unfold stringified. by rewrite list_lookup_fmap, Hcombination. }
  apply eq_true_iff_eq. rewrite Z.leb_le, indexOf_nonnegative.
  rewrite bool_decide_eq_true.
  unfold calculateIndicesIntoCombinations. fold stringified.
  rewrite !list_elem_of_fmap. split.
  - intros (activeCombination & Hfound & Hin).
    exists activeCombination. split; [|done].
    symmetry in Hfound. apply indexOf_lookup in Hfound. congruence.
  - intros (activeCombination & Hsame & Hin).
    exists activeCombination. split; [|done].
    symmetry. apply indexOf_NoDup; [done|]. by rewrite <- Hsame.
Qed.

End IncludedColumns.

(** ** The joined form of a combination *)

(** The decimal form of an index has no comma and is not empty. *)
Lemma pretty_N_char_no_comma (digit : N) :
  Ascii.eqb (pretty_N_char digit) "," = false.
Proof. unfold pretty_N_char. by repeat case_match. Qed.

Lemma pretty_N_go_no_comma (x : N) (s : string) :
  absent "," s = true → absent "," (pretty_N_go x s) = true.
Proof.
  revert s. induction (N.lt_wf_0 x) as [x _ IH]; intros s Hs.
  destruct (decide (x = 0)%N) as [->|Hx]; [by rewrite pretty_N_go_0|].
  rewrite pretty_N_go_step by lia. apply IH.
  - apply N.div_lt; lia.
  - simpl. by rewrite pretty_N_char_no_comma, Hs.
Qed.

Lemma pretty_N_go_not_empty (x : N) (s : string) :
  s ≠ "" → pretty_N_go x s ≠ "".
Proof.
  revert s. induction (N.lt_wf_0 x) as [x _ IH]; intros s Hs.
  destruct (decide (x = 0)%N) as [->|Hx]; [by rewrite pretty_N_go_0|].
  rewrite pretty_N_go_step by lia. apply IH; [apply N.div_lt; lia|done].
Qed.

Lemma pretty_index_no_comma (index : nat) : absent "," (pretty index) = true.
Proof.
  unfold pretty, pretty_nat, pretty, pretty_N.
  case_decide; [done|]. by apply pretty_N_go_no_comma.
Qed.

Lemma pretty_index_not_empty (index : nat) : pretty index ≠ "".
Proof.
  unfold pretty, pretty_nat, pretty, pretty_N.
  case_decide as Hx; [done|].
  rewrite pretty_N_go_step by lia. by apply pretty_N_go_not_empty.
Qed.

(** What follows an element in a joined string: nothing, or a comma and
    the rest. *)
Lemma append_before_comma (a b x y : string) :
  absent "," a = true → absent "," b = true →
  (x = "" ∨ ∃ x', x = String "," x') →
  (y = "" ∨ ∃ y', y = String "," y') →
  a +:+ x = b +:+ y → a = b ∧ x = y.
Proof.
  revert b. induction a as [|c a IH]; intros [|d b] Ha Hb Hx Hy;
    unfold String.app; simpl in *.
  - done.
  - intros ->. apply andb_prop in Hb as [Hd _].
    destruct Hx as [[=]|[x' [= -> _]]]. done.
  - intros <-. apply andb_prop in Ha as [Hc _].
    destruct Hy as [[=]|[y' [= -> _]]]. done.
  - intros [= -> Hrest].
    apply andb_prop in Ha as [_ Ha]. apply andb_prop in Hb as [_ Hb].
    destruct (IH b Ha Hb Hx Hy Hrest) as [-> ->]. done.
Qed.

Lemma concat_comma_cons (s : string) (l : list string) :
  String.concat "," (s :: l)
  = s +:+ (if decide (l = []) then "" else String "," (String.concat "," l)).
Proof.
  destruct l as [|s' l]; simpl.
  - induction s as [|c s IH]; [done|]. unfold String.app in *. simpl.
    by rewrite <- IH.
  - done.
Qed.

Lemma concat_comma_inj (l1 l2 : list string) :
  Forall (λ s, absent "," s = true ∧ s ≠ "") l1 →
  Forall (λ s, absent "," s = true ∧ s ≠ "") l2 →
  String.concat "," l1 = String.concat "," l2 → l1 = l2.
Proof.
  intros Hl1. revert l2.
  induction Hl1 as [|s1 l1 [Hs1 Hne1] Hl1 IH]; intros l2 Hl2.
  - destruct Hl2 as [|s2 l2 [Hs2 Hne2] Hl2]; [done|].
    rewrite concat_comma_cons. simpl. by destruct s2.
  - destruct Hl2 as [|s2 l2 [Hs2 Hne2] Hl2].
    + rewrite concat_comma_cons. simpl. by destruct s1.
    + rewrite !concat_comma_cons. intros Hsame.
      apply append_before_comma in Hsame as [-> Hrest]; [|done|done|..].
      * destruct (decide (l1 = [])) as [->|?], (decide (l2 = [])) as [->|?];
          try done.
        f_equal. injection Hrest as Hrest. by apply IH.
      * destruct (decide (l1 = [])); eauto.
      * destruct (decide (l2 = [])); eauto.
Qed.

(** Two combinations with the same joined form are the same. *)
Lemma joinIndices_dense_inj (combination combination' : list nat) :
  joinIndices "," (Some <$> combination)
    = joinIndices "," (Some <$> combination') →
  combination = combination'.
Proof.
  unfold joinIndices. rewrite <- !list_fmap_compose. intros Hsame.
  apply concat_comma_inj in Hsame.
  - revert Hsame. apply list_fmap_eq_inj. intros x y. simpl.
    apply pretty_nat_inj.
  - apply Forall_fmap, Forall_forall. intros index _. simpl.
    split; [apply pretty_index_no_comma|apply pretty_index_not_empty].
  - apply Forall_fmap, Forall_forall. intros index _. simpl.
    split; [apply pretty_index_no_comma|apply pretty_index_not_empty].
Qed.

Section Registry.

Context {Num : Type}.
Implicit Types (item : @Item Num) (combinations : list (list nat)).

(** When no two entries of [item._combinations] are equal, the columns
    that go into the total are exactly the value columns whose entry
    equals an active combination, compared as joined strings. *)
Lemma includedColumns_without_equal_entries item combinations :
  NoDup combinations →
  includedColumns item combinations
  = columnsOfActiveCombinations item combinations.
Proof.
  intros Hnodup. apply includedColumns_without_repetition.
  apply NoDup_fmap_2; [|done]. intros ??. apply joinIndices_dense_inj.
Qed.

End Registry.

(** ** The registry when no time-period dimension is recorded *)

(** A combination takes one member from each pool. *)
Lemma arrayProduct_members {A} (pools : list (list A)) (tuple : list A) :
  tuple ∈ arrayProduct pools → Forall2 (λ member pool, member ∈ pool) tuple pools.
Proof.
  revert tuple. induction pools as [|pool pools IH] using rev_ind;
    intros tuple.
  - intros ->%list_elem_of_singleton. constructor.
  - rewrite arrayProduct_snoc.
    intros (partialResult & (poolMember & ->%list_elem_of_singleton & Hmember)
              %list_elem_of_bind & Hpartial)%list_elem_of_bind.
    apply Forall2_app; [by apply IH|]. by repeat constructor.
Qed.

Lemma lexLt_irreflexive (tuple : list nat) : lexLt tuple tuple = false.
Proof.
  induction tuple as [|x tuple IH]; [done|]. simpl.
  by rewrite Nat.ltb_irrefl, IH, andb_false_r.
Qed.

(** A list in lexicographic order has no repetition. *)
Lemma lexicographic_NoDup (l : list (list nat)) : lexicographic l → NoDup l.
Proof.
  unfold lexicographic. induction 1 as [|tuple l Hsorted IH Hbelow].
  - constructor.
  - constructor; [|done]. intros Hin.
    eapply Forall_forall in Hbelow; [|done].
    by rewrite lexLt_irreflexive in Hbelow.
Qed.

(** Two combinations of the same pools with the same sub-tuple are equal:
    a trivial dimension has one value for both. *)
Lemma dropTrivial_inj (pools : list (list nat)) (tuple tuple' : list nat) :
  tuple ∈ arrayProduct pools → tuple' ∈ arrayProduct pools →
  Forall (λ pool, NoDup pool) pools →
  dropTrivial pools tuple = dropTrivial pools tuple' → tuple = tuple'.
Proof.
  intros Htuple%arrayProduct_members Htuple'%arrayProduct_members Hpools.
  revert tuple' Htuple'.
  induction Htuple as [|member pool tuple pools Hmember Htuple IH];
    intros tuple' Htuple'; inversion Htuple' as [|member' ? rest ? Hmember' Hrest];
    subst; [done|].
  apply Forall_cons in Hpools as [Hpool Hpools]. simpl.
  case_decide as Hlength.
  - intros [= -> Hsame]. f_equal. by apply IH.
  - intros Hsame. f_equal; [|by apply IH].
    apply list_elem_of_lookup in Hmember as [i Hi].
    apply list_elem_of_lookup in Hmember' as [j Hj].
    pose proof (lookup_lt_Some _ _ _ Hi). pose proof (lookup_lt_Some _ _ _ Hj).
    assert (i = j) as -> by lia. congruence.
Qed.

Section RegistryOfPipeline.

Context {Num : Type}.
Implicit Types (item : @Item Num) (pools : list (list nat)).

(** With every slot of [values] filled, the filter of the bridge drops the
    slots of the trivial dimensions from a combination that has one index
    for each dimension. *)
Lemma js_filter_from_nonTrivial item info pools (combination : list nat) i :
  _dimensionInfo item = Some info →
  di_values info = Some <$> pools →
  i + length combination = length pools →
  js_filter_from (nonTrivialFilter item) i (Some <$> combination)
  = Some (dropTrivial (drop i pools) combination).
Proof.
  intros Hinfo Hvalues. revert i.
  induction combination as [|index combination IH]; intros i Hlength.
  - simpl. by destruct (drop i pools).
  - simpl in Hlength.
    destruct (lookup_lt_is_Some_2 pools i) as [pool Hpool]; [lia|].
    rewrite (drop_S _ _ _ Hpool). cbn [fmap list_fmap js_filter_from].
    assert (nonTrivialFilter item index i
            = Some (bool_decide (1 < length pool))) as ->.
    { unfold nonTrivialFilter, js_get. rewrite Hinfo. simpl.
      by rewrite Hvalues, list_lookup_fmap, Hpool. }
    simpl. rewrite (IH (S i)) by lia. simpl.
    by case_bool_decide; [rewrite decide_True|rewrite decide_False].
Qed.

(** When no time-period dimension is recorded, the filter of the
    enumerator keeps every slot. *)
Lemma js_filter_from_no_time {A} item special (a : list A) i :
  _specialDimensions item = Some special →
  timePeriodDimensionIndex special = None →
  js_filter_from (getNonTimeDimensionFilter item) i (Some <$> a) = Some a.
Proof.
  intros Hspecial Htime. revert i.
  induction a as [|x a IH]; intros i; [done|].
  cbn [fmap list_fmap js_filter_from].
  assert (getNonTimeDimensionFilter item x i = Some true) as ->.
  { unfold getNonTimeDimensionFilter. rewrite Hspecial. simpl.
    by rewrite Htime, bool_decide_true. }
  simpl. by rewrite IH.
Qed.

(** When every slot of [values] is filled by an array without repetition
    and no time-period dimension is recorded, the bridge stores the
    sub-tuples of the combinations, no two of them equal. *)
Lemma registry_without_time_period item info special pools combinations item' :
  _dimensionInfo item = Some info →
  _specialDimensions item = Some special →
  timePeriodDimensionIndex special = None →
  di_values info = Some <$> pools →
  Forall (StronglySorted lt) pools →
  calculateShownDimensionCombinations item = Some combinations →
  setConceptsAndCombinations item combinations = Some item' →
  sdc_values combinations = arrayProduct pools
  ∧ _combinations item' = Some (dropTrivial pools <$> arrayProduct pools)
  ∧ NoDup (dropTrivial pools <$> arrayProduct pools).
Proof.
  intros Hinfo Hspecial Htime Hvalues Hpools.
  assert (Hkept : js_filter (getNonTimeDimensionFilter item) (di_values info)
                  = Some pools).
  { unfold js_filter. rewrite Hvalues. by eapply js_filter_from_no_time. }
  unfold calculateShownDimensionCombinations. rewrite Hinfo. simpl.
  rewrite Hkept. simpl.
  destruct (js_filter _ (di_names info)) as [names|]; simpl; [|done].
  intros [= <-]. unfold setConceptsAndCombinations. simpl.
  assert (Hregistry :
    mapM (λ combination,
            js_filter (nonTrivialFilter item) (Some <$> combination))
      (arrayProduct pools)
    = Some (dropTrivial pools <$> arrayProduct pools)).
  { apply mapM_Some, Forall2_fmap_r, Forall_Forall2_diag, Forall_forall.
    intros combination Hcombination. unfold js_filter.
    rewrite (js_filter_from_nonTrivial item info pools combination 0 Hinfo
               Hvalues).
    - by rewrite drop_0.
    - simpl. by apply arrayProduct_tuple_length. }
  rewrite Hregistry. simpl. rewrite Hinfo. simpl.
  destruct (js_filter _ (di_dimensionNames info)) as [dimensionNames|];
    simpl; [|done].
  destruct (js_filter _ (di_names info)) as [nonTrivialNames|]; simpl; [|done].
  destruct (conceptsLoop _ _) as [concepts|]; simpl; [|done].
  intros [= <-]. simpl. split; [done|]. split; [done|].
  apply NoDup_fmap_2_strong.
  - intros tuple tuple' Htuple Htuple'. apply dropTrivial_inj; [done..|].
    eapply Forall_impl; [done|]. intros pool Hpool. simpl.
    clear -Hpool. induction Hpool as [|x pool Hsorted IH Hbelow]; constructor;
      [|done].
    intros Hin. eapply Forall_forall in Hbelow; [|done]. lia.
  - by apply lexicographic_NoDup, arrayProduct_lexicographic.
Qed.

End RegistryOfPipeline.

Section TotalOfActiveCombinations.

Context {Num : Type}.
Variable sumValues : list (@Column Num) → option (list (@Cell Num)).

(** With a concept, and with a registry in which no two entries are equal,
    [sumValues] is called on exactly the value columns whose entry equals
    an active combination; the total column holds what the call returns,
    it is named [Total selected] and it is active. *)
Lemma buildTotalColumns_of_active_combinations (item : @Item Num) combinations :
  _concepts item ≠ [] →
  _combinations item = Some combinations →
  NoDup combinations →
  buildTotalColumns sumValues item
  = (λ summed, [ {| col_name := "Total selected"; col_values := summed;
                    col_isActive := true |} ])
    <$> sumValues (columnsOfActiveCombinations item combinations).
Proof.
  intros Hconcepts Hcombinations Hnodup.
  rewrite (buildTotalColumns_with_concepts sumValues item combinations)
    by done.
  by rewrite includedColumns_without_equal_entries.
Qed.

End TotalOfActiveCombinations.

(** C1, at the failing input.  The catalogue has the time-period dimension
    at keyPosition 0, before [Sex] (two values), [Age] (three values) and
    the region dimension (two regions); the columns of the females and of
    the males aged 0-14 and 15-64 hold numbers.  [item._combinations] then
    holds every entry twice.  After the child [65+] of [Age] is toggled
    off, four value columns have an entry that equals an active
    combination; the total column that [changedActiveItems] puts at the end
    of the table is the sum of the first two of them only.  With
    [TableColumn.sumValues] the element-wise sum, whatever the sum of the
    cells of a row is, the cell of the total at the first region is the sum
    of 1 and 2, and the cell of the claimed total is the sum of 1, 2, 5 and
    7: where these two differ, the total column is not the claimed one. *)
Theorem total_misses_repeated_combinations
    (toLowerCase : string → string) (sumCells : list (@Cell Z) → @Cell Z)
    (ofNoColumns : option (list (@Cell Z))) :
  ∃ item combinations,
    (loadAndBuildTable_then toLowerCase (sumValuesBy sumCells ofNoColumns)
       directItem timeFirstJson).2 = Some item
    ∧ _combinations item = Some combinations
    ∧ combinations = [[0; 0]; [1; 0]; [2; 0]; [0; 0]; [1; 0]; [2; 0]]
    ∧ let toggled := toggle 1 2 item in
      arrayProduct (calculateActiveConceptValues (_concepts toggled))
        = [[0; 0]; [0; 1]; [1; 0]; [1; 1]]
      ∧ columnsOfActiveCombinations toggled combinations
        = [TableColumn "Females 0-14" [CNumber 1%Z; CNumber 10%Z];
           TableColumn "Females 15-64" [CNumber 2%Z; CNumber 20%Z];
           TableColumn "Males 0-14" [CNumber 5%Z; CNumber 50%Z];
           TableColumn "Males 15-64" [CNumber 7%Z; CNumber 70%Z]]
      ∧ includedColumns toggled combinations
        = [TableColumn "Females 0-14" [CNumber 1%Z; CNumber 10%Z];
           TableColumn "Females 15-64" [CNumber 2%Z; CNumber 20%Z]]
      ∧ buildTotalColumns (sumValuesBy sumCells ofNoColumns) toggled
        = Some [ {| col_name := "Total selected";
                    col_values :=
                      [sumCells [CNumber 1%Z; CNumber 2%Z];
                       sumCells [CNumber 10%Z; CNumber 20%Z]];
                    col_isActive := true |} ]
      ∧ (λ updated, last (columns updated))
          <$> (changedActiveItems (sumValuesBy sumCells ofNoColumns) toggled).2
        = Some (Some {| col_name := "Total selected";
                        col_values :=
                          [sumCells [CNumber 1%Z; CNumber 2%Z];
                           sumCells [CNumber 10%Z; CNumber 20%Z]];
                        col_isActive := true |})
      ∧ sumValuesBy sumCells ofNoColumns
          (columnsOfActiveCombinations toggled combinations)
        = Some [sumCells [CNumber 1%Z; CNumber 2%Z; CNumber 5%Z; CNumber 7%Z];
                sumCells [CNumber 10%Z; CNumber 20%Z; CNumber 50%Z;
                          CNumber 70%Z]]
      ∧ (sumCells [CNumber 1%Z; CNumber 2%Z]
           ≠ sumCells [CNumber 1%Z; CNumber 2%Z; CNumber 5%Z; CNumber 7%Z] →
         buildTotalColumns (sumValuesBy sumCells ofNoColumns) toggled
         ≠ (λ summed, [ {| col_name := "Total selected"; col_values := summed;
                           col_isActive := true |} ])
           <$> sumValuesBy sumCells ofNoColumns
                 (columnsOfActiveCombinations toggled combinations)).
Proof.
  eexists _, _. split; [by vm_compute|]. split; [by vm_compute|].
  split; [done|]. cbv zeta.
  split; [by vm_compute|]. split; [by vm_compute|].
  split; [by vm_compute|]. split; [by vm_compute|].
  split; [by vm_compute|]. split; [by vm_compute|].
  intros Hdiffer. vm_compute. intros [= Hsame _]. by apply Hdiffer.
Qed.

Lemma total_misses_repeated_combinations_witness :
  ∃ item combinations,
    (loadAndBuildTable_then lowerCaseAscii (sumValuesBy addCells None)
       directItem timeFirstJson).2 = Some item
    ∧ _combinations item = Some combinations
    ∧ buildTotalColumns (sumValuesBy addCells None) (toggle 1 2 item)
      = Some [ {| col_name := "Total selected";
                  col_values := [CNumber 3%Z; CNumber 30%Z];
                  col_isActive := true |} ]
    ∧ sumValuesBy addCells None
        (columnsOfActiveCombinations (toggle 1 2 item) combinations)
      = Some [CNumber 15%Z; CNumber 150%Z]
    ∧ buildTotalColumns (sumValuesBy addCells None) (toggle 1 2 item)
      ≠ (λ summed, [ {| col_name := "Total selected"; col_values := summed;
                        col_isActive := true |} ])
        <$> sumValuesBy addCells None
              (columnsOfActiveCombinations (toggle 1 2 item) combinations).
Proof.
  destruct (total_misses_repeated_combinations lowerCaseAscii addCells None)
    as (item & combinations & Hloaded & Hcombinations & _ & _ & _ & _
        & Htotal & _ & Hclaimed & Hdiffer).
  exists item, combinations.
  split; [exact Hloaded|]. split; [exact Hcombinations|].
  split; [exact Htotal|]. split; [exact Hclaimed|].
  apply Hdiffer. discriminate.
Defined.

(** In the table of three regions and two measures no entry is repeated:
    with [Deaths] toggled off the total is the sum of the column [Births]
    alone, the one column of an active combination. *)
Lemma total_of_births (toLowerCase : string → string)
    (sumCells : list (@Cell Z) → @Cell Z)
    (ofNoColumns : option (list (@Cell Z))) :
  ∃ item combinations,
    (loadAndBuildTable_then toLowerCase (sumValuesBy sumCells ofNoColumns)
       directItem birthsAndDeathsJson).2
      = Some item
    ∧ _combinations item = Some combinations
    ∧ let toggled := toggle 0 1 item in
      includedColumns toggled combinations
        = columnsOfActiveCombinations toggled combinations
      ∧ includedColumns toggled combinations
        = [TableColumn "Births" [CNumber 10%Z; CNull; CNull]]
      ∧ (λ updated, last (columns updated))
          <$> (changedActiveItems (sumValuesBy sumCells ofNoColumns) toggled).2
        = Some (Some {| col_name := "Total selected";
                        col_values :=
                          [sumCells [CNumber 10%Z]; sumCells [CNull];
                           sumCells [CNull]];
                        col_isActive := true |}).
Proof.
  eexists _, _. split; [by vm_compute|]. split; [by vm_compute|].
  by vm_compute.
Qed.

(** ** The filter expression when no dimension follows the time period *)

Section RequestString.

Context {Num : Type}.
Implicit Types (item : @Item Num) (special : SpecialDimensions).

Lemma tail_drop {A} (l : list A) (n : nat) : tail (drop n l) = drop (S n) l.
Proof.
  revert l. induction n as [|n IH]; intros [|x l]; simpl; by try apply IH.
Qed.

Lemma head_drop_lookup {A} (l : list A) (n : nat) : head (drop n l) = l !! n.
Proof. by rewrite head_lookup, lookup_drop, Nat.add_0_r. Qed.

(** The loop of the code over the kept dimensions and the tokens of the
    specification over all the slots. *)
Lemma activeDimensionValuesLoop_tokens item special activeConceptValues
    (ids : list (option (list string))) :
  _specialDimensions item = Some special →
  Forall is_Some ids →
  ∀ dim nextConceptIndex kept tokens,
    (∀ time, timePeriodDimensionIndex special = Some time →
             dim + length ids ≤ S time) →
    js_filter_from (getNonTimeDimensionFilter item) dim ids = Some kept →
    activeDimensionValuesLoop item activeConceptValues dim nextConceptIndex kept
      = Some tokens →
    requestTokens special (drop nextConceptIndex activeConceptValues) dim ids
      = tokens.
Proof.
  intros Hspecial Hdense.
  induction Hdense as [|slot ids [theseIds ->] Hdense IH];
    intros dim nextConceptIndex kept tokens Hlast; simpl.
  - intros [= <-]. simpl. by intros [= <-].
  - assert (getNonTimeDimensionFilter item theseIds dim
            = Some (bool_decide (Some dim ≠ timePeriodDimensionIndex special)))
      as ->.
    { unfold getNonTimeDimensionFilter. by rewrite Hspecial. }
    simpl.
    destruct (js_filter_from _ (S dim) ids) as [rest|] eqn:Hrest;
      simpl; [|done].
    assert (Hnext : ∀ time, timePeriodDimensionIndex special = Some time →
                            S dim + length ids ≤ S time).
    { intros time Htime. specialize (Hlast time Htime). simpl in Hlast. lia. }
    case_bool_decide as Htime; intros [= <-].
    + rewrite decide_False by done. simpl. rewrite Hspecial. simpl.
      case_decide as Hregion.
      * destruct (activeDimensionValuesLoop _ _ _ _ rest) as [more|] eqn:Hmore;
          simpl; [|done].
        intros [= <-]. f_equal. by eapply IH.
      * case_decide as Hone.
        -- destruct (activeDimensionValuesLoop _ _ _ _ rest) as [more|]
             eqn:Hmore; simpl; [|done].
           intros [= <-]. f_equal. by eapply IH.
        -- destruct (activeConceptValues !! nextConceptIndex) as [active|]
             eqn:Hactive; [|done].
           destruct (activeDimensionValuesLoop _ _ _ _ rest) as [more|]
             eqn:Hmore; simpl; [|done].
           intros [= <-]. rewrite head_drop_lookup, Hactive, tail_drop. simpl.
           f_equal. by eapply IH.
    + rewrite decide_True by done.
      specialize (Hlast dim (eq_sym Htime)). simpl in Hlast.
      destruct ids as [|? ?]; [|simpl in Hlast; lia].
      simpl in Hrest. injection Hrest as <-. simpl. by intros [= <-].
Qed.

(** When every slot of [ids] is filled and no dimension comes after the
    time-period dimension, the string that
    [calculateDimensionRequestString] returns is the filter expression of
    the specification. *)
Lemma request_string_without_later_dimensions item info special request :
  _dimensionInfo item = Some info →
  _specialDimensions item = Some special →
  Forall is_Some (di_ids info) →
  (∀ time, timePeriodDimensionIndex special = Some time →
           length (di_ids info) ≤ S time) →
  calculateDimensionRequestString item = Some request →
  requestStringOfSpec item = Some request.
Proof.
  intros Hinfo Hspecial Hdense Hlast.
  unfold calculateDimensionRequestString, requestStringOfSpec.
  rewrite Hinfo, Hspecial. simpl. unfold js_filter.
  destruct (js_filter_from _ 0 (di_ids info)) as [kept|] eqn:Hkept;
    simpl; [|done].
  destruct (activeDimensionValuesLoop _ _ _ _ kept) as [tokens|] eqn:Htokens;
    simpl; [|done].
  intros [= <-]. do 3 f_equal.
  rewrite <- (drop_0 (calculateActiveConceptValues (_concepts item))).
  by eapply activeDimensionValuesLoop_tokens.
Qed.

End RequestString.

(** ** The two kinds of url *)

(** A url with a filter expression after the dataset names the data
    itself; a url that ends at the dataset, with or without a slash, has a
    dataflow url, and [_load] asks for the dataflow first. *)
Lemma topology_of_urls :
  _dataflowUrl (@directItem Z) = None
  ∧ (_load (Num := Z)
       (urlAlone
          "http://stat.abs.gov.au/sdmx-json/data/ABS_REGIONAL_LGA/CABEE_2.LGA2013.1+.A/all")).2
    = [LoadJson
         "http://stat.abs.gov.au/sdmx-json/data/ABS_REGIONAL_LGA/CABEE_2.LGA2013.1+.A/all"]
  ∧ _dataflowUrl (@dataflowItem Z)
    = Some "http://stat.abs.gov.au/sdmx-json/dataflow/ABS_REGIONAL_LGA"
  ∧ (_load (Num := Z)
       (urlAlone "http://stat.abs.gov.au/sdmx-json/data/ABS_REGIONAL_LGA")).2
    = [LoadJson "http://stat.abs.gov.au/sdmx-json/dataflow/ABS_REGIONAL_LGA"]
  ∧ (_load (Num := Z)
       (urlAlone "http://stat.abs.gov.au/sdmx-json/data/ABS_REGIONAL_LGA/")).2
    = [LoadJson "http://stat.abs.gov.au/sdmx-json/dataflow/ABS_REGIONAL_LGA/"].
Proof. by vm_compute. Qed.

(** ** The earlier revision *)

(** The earlier resolver records the last matching entry as well. *)
Lemma earlier_resolver_records_the_last :
  Earlier.regionDimensionIndex
    (Earlier.calculateRegionDimensionInfo "REGION" "REGIONTYPE"
       twoRegionDimensions)
  = Some 1.
Proof. reflexivity. Qed.

(** The earlier decoder prints nothing either. *)
Lemma earlier_decoder_never_reports structureSeries :
  (Earlier.calculateDimensionNamesAndValues structureSeries).1 = [].
Proof.
  unfold Earlier.calculateDimensionNamesAndValues, js_indexOf. simpl.
  by rewrite js_indexOf_from_never.
Qed.

(** The earlier enumerator on dimensions of 2 regions, 1 region type, 3
    ages and 2 sexes. *)
Lemma earlier_combinations_of_lengths_1_1_3_2 :
  let structureSeries := structure_dimensions_observation fourDimensionsDataflow in
  snd <$>
    Earlier.calculateNonRegionDimensionCombinations
      (Earlier.calculateDimensionNamesAndValues structureSeries).2
      (Earlier.calculateRegionDimensionInfo "REGION" "REGIONTYPE" structureSeries)
  = Some ([[0; 0; 0; 0]; [0; 0; 0; 1]; [0; 0; 1; 0];
           [0; 0; 1; 1]; [0; 0; 2; 0]; [0; 0; 2; 1]],
          [[""; ""; "0-14"; "Females"]; [""; ""; "0-14"; "Males"];
           [""; ""; "15-64"; "Females"]; [""; ""; "15-64"; "Males"];
           [""; ""; "65+"; "Females"]; [""; ""; "65+"; "Males"]]).
Proof. by vm_compute. Qed.
